(** * The tokenization subsystem of [do_tokenize.py]

    A shallow embedding of the regex segmenter, of the [BasicTokenizer]
    class with its file-backed vocabulary, and of the [TOKENIZERS] dispatch
    table, followed by the properties of the specification.

    Conventions of the embedding:
    - a Python [str] is a [string]; a character is a code point of the
      8-bit alphabet (0..255), which holds every character the patterns
      and markers of the program mention;
    - a Python [int] is a [Z]; a [dict] is a [gmap]; a [list] is a [list];
    - the file system is reduced to the one path the program reads and
      writes, [vocab_file]: [None] when the file does not exist, else its
      text;
    - a call that can raise returns a [result]. *)

From Stdlib Require Import ZArith Ascii String.
From stdpp Require Import gmap strings list fin_maps pretty.

Local Open Scope string_scope.
Local Open Scope list_scope.
Local Open Scope Z_scope.

(** ** Exceptions *)

Inductive exn : Type :=
  | ValueError (msg : string)
  | KeyError (key : string)
  | JSONDecodeError (msg : string).

Inductive result (A : Type) : Type :=
  | Ok (a : A)
  | Raise (e : exn).
Arguments Ok {A} a.
Arguments Raise {A} e.

#[global] Instance result_ret : MRet result := @Ok.
#[global] Instance result_bind : MBind result := λ A B k r,
  match r with
  | Ok a => k a
  | Raise e => Raise e
  end.

(** ** Characters *)

Definition ord (c : ascii) : Z := Z.of_N (N_of_ascii c).

(** The double quote, which a string literal cannot hold. *)
Definition dquote : ascii := "034"%char.

(** [str.isspace] on one character, which is also what [\s] matches in a
    [str] pattern: TAB, LF, VT, FF, CR, FS, GS, RS, US, SPACE, NEL, NBSP. *)
Definition isspace (c : ascii) : bool :=
  let n := ord c in
  ((9 <=? n) && (n <=? 13)) || ((28 <=? n) && (n <=? 32))
  || (n =? 133) || (n =? 160).

(** The character class of the pattern: comma, full stop, colon,
    semicolon, question mark, underscore, exclamation mark, double quote,
    the two parentheses and the apostrophe. *)
Definition punctuation : list ascii :=
  [","; "."; ":"; ";"; "?"; "_"; "!"; dquote; "("; ")"; "'"]%char.

Definition in_class (c : ascii) : bool := bool_decide (c ∈ punctuation).

(** ** The segmenter: lines 98-101 of [BasicTokenizer.encode] *)

(** [re.split] with the pattern [(class|--|\s)]: the text is scanned from
    the left; where the pattern matches (the alternatives are tried in
    order: one character of the class, the two characters [--], one
    white-space character) the piece read so far is emitted, then the text
    of the capturing group, which is the whole match, and the scan goes on
    after the match with an empty piece. The last piece is emitted at the
    end of the text. [piece] is the text since the end of the last match. *)
Fixpoint re_split_from (piece : string) (text : string) : list string :=
  match text with
  | EmptyString => [piece]
  | String c rest =>
      if in_class c then piece :: String c "" :: re_split_from "" rest
      else
        let otherwise :=
          if isspace c then piece :: String c "" :: re_split_from "" rest
          else re_split_from (piece +:+ String c "") rest in
        if Ascii.eqb c "-" then
          match rest with
          | String d rest' =>
              if Ascii.eqb d "-" then piece :: "--" :: re_split_from "" rest'
              else otherwise
          | EmptyString => otherwise
          end
        else otherwise
  end.

Definition re_split (text : string) : list string := re_split_from "" text.

(** [str.strip()]: leading and trailing white space removed. *)
Fixpoint lstrip (s : string) : string :=
  match s with
  | String c rest => if isspace c then lstrip rest else s
  | EmptyString => ""
  end.

Fixpoint rstrip (s : string) : string :=
  match s with
  | String c rest =>
      match rstrip rest with
      | EmptyString => if isspace c then "" else String c ""
      | r => String c r
      end
  | EmptyString => ""
  end.

Definition strip (s : string) : string := rstrip (lstrip s).

(** [[item.strip() for item in text_tokens if item.strip()]] after the
    split: a string is true when it is not empty. *)
Definition segment (text : string) : list string :=
  strip <$> filter (λ item, strip item ≠ "") (re_split text).

(** ** The vocabulary file: [json.dump] and [json.load] on a list of strings *)

Definition backslash : ascii := "\"%char.

Definition hex_digit (n : Z) : ascii :=
  if n <? 10 then ascii_of_N (Z.to_N (48 + n)) else ascii_of_N (Z.to_N (87 + n)).

(** ['\\u{0:04x}'.format(n)] for a character of the alphabet. *)
Definition escape_u (c : ascii) : string :=
  String backslash
    (String "u" (String "0" (String "0"
      (String (hex_digit (ord c / 16)) (String (hex_digit (ord c mod 16)) ""))))).

(** One character under [ensure_ascii]: the pattern [ESCAPE_ASCII] picks
    the backslash, the double quote and everything outside space..tilde;
    [ESCAPE_DCT] holds the short escapes. *)
Definition escape_char (c : ascii) : string :=
  if Ascii.eqb c backslash then String backslash (String backslash "")
  else if Ascii.eqb c dquote then String backslash (String dquote "")
  else if Ascii.eqb c "008" then String backslash "b"
  else if Ascii.eqb c "012" then String backslash "f"
  else if Ascii.eqb c "010" then String backslash "n"
  else if Ascii.eqb c "013" then String backslash "r"
  else if Ascii.eqb c "009" then String backslash "t"
  else if (32 <=? ord c) && (ord c <=? 126) then String c ""
  else escape_u c.

Fixpoint escape (s : string) : string :=
  match s with
  | EmptyString => ""
  | String c rest => escape_char c +:+ escape rest
  end.

Definition encode_basestring_ascii (s : string) : string :=
  String dquote (escape s +:+ String dquote "").

(** [json.dump(self.vocab, f)] with the default separators: the text
    written to the file. *)
Definition json_dump (l : list string) : string :=
  match l with
  | [] => "[]"
  | _ => "[" +:+ String.concat ", " (encode_basestring_ascii <$> l) +:+ "]"
  end.

(** The white space of the JSON scanner: space, TAB, LF, CR. *)
Definition json_ws (c : ascii) : bool :=
  Ascii.eqb c " " || Ascii.eqb c "009" || Ascii.eqb c "010" || Ascii.eqb c "013".

Fixpoint skip_ws (s : string) : string :=
  match s with
  | String c rest => if json_ws c then skip_ws rest else s
  | EmptyString => ""
  end.

Definition hex_value (c : ascii) : option Z :=
  let n := ord c in
  if (48 <=? n) && (n <=? 57) then Some (n - 48)
  else if (97 <=? n) && (n <=? 102) then Some (n - 87)
  else if (65 <=? n) && (n <=? 70) then Some (n - 55)
  else None.

(** [_decode_uXXXX]: four hexadecimal digits, read in base 16. *)
Definition decode_uXXXX (h1 h2 h3 h4 : ascii) : option Z :=
  a ← hex_value h1; b ← hex_value h2; c ← hex_value h3; d ← hex_value h4;
  Some (((a * 16 + b) * 16 + c) * 16 + d).

(** The table [BACKSLASH] of the scanner. *)
Definition BACKSLASH (esc : ascii) : option ascii :=
  if Ascii.eqb esc dquote then Some dquote
  else if Ascii.eqb esc backslash then Some backslash
  else if Ascii.eqb esc "/" then Some "/"%char
  else if Ascii.eqb esc "b" then Some "008"%char
  else if Ascii.eqb esc "f" then Some "012"%char
  else if Ascii.eqb esc "n" then Some "010"%char
  else if Ascii.eqb esc "r" then Some "013"%char
  else if Ascii.eqb esc "t" then Some "009"%char
  else None.

(** [scanstring], strict: [s] is the text after the opening quote, [acc]
    the characters decoded so far; the result is the decoded string and the
    text after the closing quote. An escape that names a character beyond
    the 8-bit alphabet is outside the model and reported as an error. *)
Fixpoint scanstring (acc : string) (s : string) : result (string * string) :=
  match s with
  | EmptyString => Raise (JSONDecodeError "Unterminated string starting at")
  | String c rest =>
      if Ascii.eqb c dquote then Ok (acc, rest)
      else if Ascii.eqb c backslash then
        match rest with
        | EmptyString => Raise (JSONDecodeError "Unterminated string starting at")
        | String esc rest1 =>
            if Ascii.eqb esc "u" then
              match rest1 with
              | String h1 (String h2 (String h3 (String h4 rest2))) =>
                  match decode_uXXXX h1 h2 h3 h4 with
                  | Some uni =>
                      if uni <? 256
                      then scanstring (acc +:+ String (ascii_of_N (Z.to_N uni)) "") rest2
                      else Raise (JSONDecodeError "character beyond the alphabet")
                  | None => Raise (JSONDecodeError "Invalid \uXXXX escape")
                  end
              | _ => Raise (JSONDecodeError "Invalid \uXXXX escape")
              end
            else
              match BACKSLASH esc with
              | Some char => scanstring (acc +:+ String char "") rest1
              | None => Raise (JSONDecodeError "Invalid \escape")
              end
        end
      else if ord c <? 32 then Raise (JSONDecodeError "Invalid control character at")
      else scanstring (acc +:+ String c "") rest
  end.

(** The loop of [JSONArray] once the array is known not to be empty: a
    value, then a closing bracket or a comma and the next value. The values
    of a vocabulary file are strings; any other JSON value is outside the
    model and reported as an error. [fuel] bounds the number of values. *)
Fixpoint parse_elements (fuel : nat) (s : string) : result (list string * string) :=
  match fuel with
  | O => Raise (JSONDecodeError "Expecting value")
  | S fuel =>
      match s with
      | String c body =>
          if Ascii.eqb c dquote then
            '(value, s1) ← scanstring "" body;
            match skip_ws s1 with
            | String d s2 =>
                if Ascii.eqb d "]" then Ok ([value], s2)
                else if Ascii.eqb d "," then
                  '(values, s3) ← parse_elements fuel (skip_ws s2);
                  Ok (value :: values, s3)
                else Raise (JSONDecodeError "Expecting ',' delimiter")
            | EmptyString => Raise (JSONDecodeError "Expecting ',' delimiter")
            end
          else Raise (JSONDecodeError "Expecting value")
      | EmptyString => Raise (JSONDecodeError "Expecting value")
      end
  end.

(** [json.load(f)] on the text of the file: white space, an array, white
    space, the end of the text. The texts read here are those that
    [json.dump] writes for a list of strings over the alphabet of the
    model: an array of strings. On the other values of JSON (a number, an
    object, [null], an array of another kind, an escape above [u00ff])
    [json.load] returns a value that is no list of such strings; the model
    has no such value and gives [JSONDecodeError] for them. The
    statements about files below ask that the file loads. *)
Definition json_load (s : string) : result (list string) :=
  match skip_ws s with
  | String c s1 =>
      if Ascii.eqb c "[" then
        '(values, s2) ←
          match skip_ws s1 with
          | String d s2 =>
              if Ascii.eqb d "]" then Ok ([], s2)
              else parse_elements (String.length s) (String d s2)
          | EmptyString => Raise (JSONDecodeError "Expecting value")
          end;
        match skip_ws s2 with
        | EmptyString => Ok values
        | _ => Raise (JSONDecodeError "Extra data")
        end
      else Raise (JSONDecodeError "Expecting value")
  | EmptyString => Raise (JSONDecodeError "Expecting value")
  end.

(** ** The class [BasicTokenizer] *)

Record BasicTokenizer : Type := mkBasicTokenizer {
  vocab : list string;
  token_to_id : gmap string Z;
  id_to_token : gmap Z string
}.

(** The files of the program, by path. *)
Abbreviation FS := (gmap string string).

Definition vocab_file : string := "./data/vocabulary/basictokenizer_vocab.json".

(** The dictionary [special_tokens], in the order of its keys. *)
Definition special_tokens : list (string * string) :=
  [("<|BOS|>", "Beginning of Sequence"); ("<|EOS|>", "End of Sequence")].

Definition len {A} (l : list A) : Z := Z.of_nat (length l).

Definition enumerate {A} (l : list A) : list (Z * A) :=
  imap (λ idx x, (Z.of_nat idx, x)) l.

(** A dictionary comprehension: the pairs are stored from left to right, a
    later pair replaces an earlier one with the same key. *)
Definition dict_of `{Countable K} {V} (items : list (K * V)) : gmap K V :=
  foldl (λ d item, <[item.1 := item.2]> d) ∅ items.

(** The three statements that give a token the next id (lines 78-80 and
    112-114). *)
Definition append_token (self : BasicTokenizer) (token : string) : BasicTokenizer :=
  let vocab' := vocab self ++ [token] in
  {| vocab := vocab';
     token_to_id := <[token := len vocab' - 1]> (token_to_id self);
     id_to_token := <[len vocab' - 1 := token]> (id_to_token self) |}.

Definition save_vocab (self : BasicTokenizer) (fs : FS) : FS :=
  <[vocab_file := json_dump (vocab self)]> fs.

(** The constructor, from the fields set at lines 54-56. Creating the
    directory of the file leaves the files as they are. *)
Definition __init__ (fs : FS) : result (BasicTokenizer * FS) :=
  let self := {| vocab := []; token_to_id := ∅; id_to_token := ∅ |} in
  match fs !! vocab_file with
  | Some text =>
      loaded ← json_load text;
      mret ({| vocab := loaded;
               token_to_id := dict_of ((λ '(idx, token), (token, idx)) <$> enumerate loaded);
               id_to_token := dict_of (enumerate loaded) |}, fs)
  | None =>
      let self := foldl append_token self (special_tokens.*1) in
      mret (self, save_vocab self fs)
  end.

(** [d[key]] *)
Definition getitem (d : gmap string Z) (key : string) : result Z :=
  match d !! key with
  | Some v => Ok v
  | None => Raise (KeyError key)
  end.

(** The state of the loop of [encode]: the object, [token_ids] and
    [new_tokens]. *)
Definition loop_state : Type := BasicTokenizer * list Z * list string.

(** The body of the loop, lines 111-116. *)
Definition encode_token (st : loop_state) (token : string) : result loop_state :=
  let '(self, token_ids, new_tokens) := st in
  let '(self, new_tokens) :=
    if decide (token_to_id self !! token = None)
    then (append_token self token, new_tokens ++ [token])
    else (self, new_tokens) in
  id ← getitem (token_to_id self) token;
  mret (self, token_ids ++ [id], new_tokens).

Fixpoint for_each {S A} (body : S → A → result S) (l : list A) (st : S) : result S :=
  match l with
  | [] => Ok st
  | x :: l => st ← body st x; for_each body l st
  end.

(** The list [tokens] of [encode]: the text between the two markers. *)
Definition framed (text : string) : list string :=
  ["<|BOS|>"] ++ segment text ++ ["<|EOS|>"].

Definition encode (self : BasicTokenizer) (fs : FS) (text : string)
    (vocab_update : bool) : result (list Z * BasicTokenizer * FS) :=
  let tokens := framed text in
  '(self, token_ids, new_tokens) ← for_each encode_token tokens (self, [], []);
  let fs :=
    if vocab_update && bool_decide (new_tokens ≠ []) then save_vocab self fs else fs in
  mret (token_ids, self, fs).

(** [dict.get] with the default, then the join. *)
Definition decode (self : BasicTokenizer) (token_ids : list Z) : string :=
  String.concat ""
    ((λ token_id, default "[UNK]" (id_to_token self !! token_id)) <$> token_ids).

(** ** The table [TOKENIZERS] and the two entry points *)

Inductive strategy : Type :=
  B | TIKTOKEN | BPE | WP | SP | ULM | BL_BPE | CHAR | T5.

(** The keys of the table, each with the entry it names. *)
Definition TOKENIZERS : gmap string strategy :=
  dict_of [("B", B); ("TIKTOKEN", TIKTOKEN); ("BPE", BPE); ("WP", WP); ("SP", SP);
           ("ULM", ULM); ("BL-BPE", BL_BPE); ("CHAR", CHAR); ("T5", T5)].

Definition unknown_tokenizer (tokenizer_type : string) : exn :=
  ValueError ("Unknown tokenizer type: " +:+ tokenizer_type +:+
    ". Available options: ['B', 'TIKTOKEN', 'BPE', 'WP', 'SP', 'ULM', 'BL-BPE', 'CHAR', 'T5']").

(** What a caller depends on: the entry of the table behind a recognised
    name. *)
Definition resolve (tokenizer_type : string) : result strategy :=
  match TOKENIZERS !! tokenizer_type with
  | Some entry => Ok entry
  | None => Raise (unknown_tokenizer tokenizer_type)
  end.

Section Registry.
(** The entries other than B call libraries outside the program; they are
    taken as given. *)
Context (external_encode : strategy → string → FS → result (list Z * FS)).
Context (external_decode : strategy → list Z → FS → result (string * FS)).

(** [lambda text: BasicTokenizer().encode(text)] *)
Definition B_encode (text : string) (fs : FS) : result (list Z * FS) :=
  '(self, fs) ← __init__ fs;
  '(token_ids, _, fs) ← encode self fs text true;
  mret (token_ids, fs).

(** [lambda token_ids: BasicTokenizer().decode(token_ids)] *)
Definition B_decode (token_ids : list Z) (fs : FS) : result (string * FS) :=
  '(self, fs) ← __init__ fs;
  mret (decode self token_ids, fs).

Definition encode_func (entry : strategy) : string → FS → result (list Z * FS) :=
  match entry with
  | B => B_encode
  | other => external_encode other
  end.

Definition decode_func (entry : strategy) : list Z → FS → result (string * FS) :=
  match entry with
  | B => B_decode
  | other => external_decode other
  end.

Definition encode_text (text tokenizer_type : string) (fs : FS) : result (list Z * FS) :=
  match TOKENIZERS !! tokenizer_type with
  | None => Raise (unknown_tokenizer tokenizer_type)
  | Some entry => encode_func entry text fs
  end.

Definition decode_text (token_ids : list Z) (tokenizer_type : string) (fs : FS)
    : result (string * FS) :=
  match TOKENIZERS !! tokenizer_type with
  | None => Raise (unknown_tokenizer tokenizer_type)
  | Some entry => decode_func entry token_ids fs
  end.
End Registry.

(** ** The command line of [do_tokenize.py] *)

Record Args : Type := mkArgs {
  args_tokenizer : string;
  args_encode : bool;
  args_decode : bool;
  args_text : option string;
  args_token_ids : option (list Z)
}.

(** What [main] prints, one constructor per [print]. *)
Inductive line : Type :=
  | Line_tokenizer (name : string)
  | Line_token_ids (token_ids : list Z)
  | Line_decoded (text : string)
  | Line_error (e : exn).

(** [not x] for an optional string or list. *)
Definition falsy_text (t : option string) : bool :=
  match t with Some (String _ _) => false | _ => true end.
Definition falsy_ids (t : option (list Z)) : bool :=
  match t with Some (_ :: _) => false | _ => true end.

Section Main.
Context (external_encode : strategy → string → FS → result (list Z * FS)).
Context (external_decode : strategy → list Z → FS → result (string * FS)).

(** [main] after the parsing of the arguments: the lines printed, or the
    exception that leaves [main]. The checks of the arguments are outside
    the [try]; the call of the tokenizer is inside. *)
Definition main (args : Args) (fs : FS) : result (list line) :=
  if args_encode args && args_decode args then
    Raise (ValueError "Cannot use both -e and -d at the same time.")
  else if negb (args_encode args) && negb (args_decode args) then
    Raise (ValueError "Must specify either -e (encode) or -d (decode).")
  else if args_encode args && falsy_text (args_text args) then
    Raise (ValueError "Text to encode (-s) is required for encoding.")
  else if args_decode args && falsy_ids (args_token_ids args) then
    Raise (ValueError "Token IDs to decode (-t) are required for decoding.")
  else if args_encode args then
    match encode_text external_encode (default "" (args_text args))
            (args_tokenizer args) fs with
    | Ok (token_ids, _) =>
        Ok [Line_tokenizer (args_tokenizer args); Line_token_ids token_ids]
    | Raise e => Ok [Line_error e]
    end
  else
    match decode_text external_decode (default [] (args_token_ids args))
            (args_tokenizer args) fs with
    | Ok (decoded_text, _) =>
        Ok [Line_tokenizer (args_tokenizer args); Line_decoded decoded_text]
    | Raise e => Ok [Line_error e]
    end.
End Main.

(** ** Uses of the tokenizer in one process *)

(** A call of a method on an object of the class. *)
Inductive call : Type :=
  | Encode (text : string) (vocab_update : bool)
  | Decode (token_ids : list Z).

Inductive reply : Type :=
  | Ids (token_ids : list Z)
  | Text (text : string).

Definition invoke (c : call) (self : BasicTokenizer) (fs : FS)
    : result (reply * BasicTokenizer * FS) :=
  match c with
  | Encode text vocab_update =>
      '(token_ids, self, fs) ← encode self fs text vocab_update;
      mret (Ids token_ids, self, fs)
  | Decode token_ids => mret (Text (decode self token_ids), self, fs)
  end.

Fixpoint run_calls (cs : list call) (self : BasicTokenizer) (fs : FS)
    : result (list reply * BasicTokenizer * FS) :=
  match cs with
  | [] => mret ([], self, fs)
  | c :: cs =>
      '(r, self, fs) ← invoke c self fs;
      '(rs, self, fs) ← run_calls cs self fs;
      mret (r :: rs, self, fs)
  end.

(** A session: an object is made, then used for some calls. The entries of
    strategy B make a session of one call each time they are called. *)
Definition session (cs : list call) (fs : FS)
    : result (list reply * BasicTokenizer * FS) :=
  '(self, fs) ← __init__ fs;
  run_calls cs self fs.

(** Sessions one after the other on the same files. *)
Fixpoint run_sessions (ss : list (list call)) (fs : FS)
    : result (list (list reply) * FS) :=
  match ss with
  | [] => mret ([], fs)
  | cs :: ss =>
      '(rs, _, fs) ← session cs fs;
      '(rss, fs) ← run_sessions ss fs;
      mret (rs :: rss, fs)
  end.

(** The pairs of a token and the id returned for it, over the calls of a
    session and over sessions. *)
Definition emitted_by (c : call) (r : reply) : list (string * Z) :=
  match c, r with
  | Encode text _, Ids token_ids => zip (framed text) token_ids
  | _, _ => []
  end.

Definition emitted (cs : list call) (rs : list reply) : list (string * Z) :=
  mjoin (zip_with emitted_by cs rs).

Definition emitted_all (ss : list (list call)) (rss : list (list reply))
    : list (string * Z) :=
  mjoin (zip_with emitted ss rss).

(** ** Predicates of the specification *)

(** The index of the tokens of a list, as the constructor builds it. *)
Definition token_index (l : list string) : gmap string Z :=
  dict_of ((λ '(idx, token), (token, idx)) <$> enumerate l).

(** The two dictionaries are those of the list. *)
Definition linked (self : BasicTokenizer) : Prop :=
  token_to_id self = token_index (vocab self)
  ∧ id_to_token self = dict_of (enumerate (vocab self)).

(** The invariant of the vocabulary: position and id agree both ways, the
    ids are the positions 0..len-1, no token is there twice. *)
Record consistent (self : BasicTokenizer) : Prop := {
  consistent_entry : ∀ (i : nat) token,
    vocab self !! i = Some token → token_to_id self !! token = Some (Z.of_nat i);
  consistent_id : ∀ token id,
    token_to_id self !! token = Some id →
    0 ≤ id < len (vocab self) ∧ vocab self !! Z.to_nat id = Some token;
  consistent_reverse : ∀ id token,
    id_to_token self !! id = Some token ↔ token_to_id self !! token = Some id;
  consistent_nodup : NoDup (vocab self)
}.

(** The vocabulary file is absent, or holds a list without repetition, as
    the files that [save_vocab] writes do. *)
Definition store_ok (fs : FS) : Prop :=
  ∀ text, fs !! vocab_file = Some text →
    ∃ l, json_load text = Ok l ∧ NoDup l.

(** The vocabulary file is absent, or holds a list of strings. *)
Definition loadable (fs : FS) : Prop :=
  ∀ text, fs !! vocab_file = Some text → ∃ l, json_load text = Ok l.

(** The object that the constructor makes when there is no file. *)
Definition fresh_tokenizer : BasicTokenizer :=
  foldl append_token {| vocab := []; token_to_id := ∅; id_to_token := ∅ |}
    (special_tokens.*1).

(** The file holds the list of the object. *)
Definition synced (self : BasicTokenizer) (fs : FS) : Prop :=
  ∃ text, fs !! vocab_file = Some text ∧ json_load text = Ok (vocab self).

(** A call that writes the file when it adds a token. *)
Definition persistent (c : call) : Prop :=
  match c with
  | Encode _ vocab_update => vocab_update = true
  | Decode _ => True
  end.

(** An object that a program can hold: made by the constructor, then used. *)
Definition reachable (self : BasicTokenizer) : Prop :=
  ∃ fs cs self0 fs0 rs fs',
    __init__ fs = Ok (self0, fs0) ∧ run_calls cs self0 fs0 = Ok (rs, self, fs').

(** The entry of a list at an id, when the id is a position of the list. *)
Definition token_at (l : list string) (id : Z) : option string :=
  if decide (0 ≤ id < len l) then l !! Z.to_nat id else None.

(** The names that the table recognises. *)
Definition recognised : list string :=
  ["B"; "TIKTOKEN"; "BPE"; "WP"; "SP"; "ULM"; "BL-BPE"; "CHAR"; "T5"].

(** How often a character occurs in a string. *)
Fixpoint occurrences (c : ascii) (s : string) : nat :=
  match s with
  | EmptyString => 0
  | String d rest => (if Ascii.eqb d c then 1 else 0) + occurrences c rest
  end.

(** A substring. *)
Definition substring_of (s t : string) : Prop :=
  ∃ before after, t = before +:+ s +:+ after.

Definition is_delimiter (s : string) : Prop :=
  s = "--" ∨ ∃ c, s = String c "" ∧ in_class c = true.

Fixpoint no_space (s : string) : Prop :=
  match s with
  | EmptyString => True
  | String c rest => isspace c = false ∧ no_space rest
  end.

Fixpoint remove_spaces (s : string) : string :=
  match s with
  | EmptyString => ""
  | String c rest => if isspace c then remove_spaces rest else String c (remove_spaces rest)
  end.

(** A character that no alternative of the pattern matches on its own. *)
Definition plain (c : ascii) : Prop := in_class c = false ∧ isspace c = false.

Fixpoint all_plain (s : string) : Prop :=
  match s with
  | EmptyString => True
  | String c rest => plain c ∧ all_plain rest
  end.

Definition starts_dash (s : string) : Prop := ∃ rest, s = String "-" rest.

Fixpoint ends_dash (s : string) : Prop :=
  match s with
  | EmptyString => False
  | String c EmptyString => c = "-"%char
  | String _ rest => ends_dash rest
  end.

(** No two dashes in a row. *)
Fixpoint dash_free (s : string) : Prop :=
  match s with
  | EmptyString => True
  | String c rest => ¬ (c = "-"%char ∧ starts_dash rest) ∧ dash_free rest
  end.

(** What the split yields: text between matches, which holds no match; a
    match of the class or of the two dashes; a white-space character. *)
Inductive split_piece (s : string) : Prop :=
  | piece_between : all_plain s → dash_free s → split_piece s
  | piece_delimiter : is_delimiter s → split_piece s
  | piece_space (c : ascii) : s = String c "" → isspace c = true → split_piece s.

(** [self'] is [self] with the tokens [news] appended. *)
Record extends (self self' : BasicTokenizer) (news : list string) : Prop := {
  ext_linked : linked self';
  ext_vocab : vocab self' = vocab self ++ news;
  ext_ids : token_to_id self ⊆ token_to_id self';
  ext_nodup : NoDup (vocab self) → NoDup (vocab self')
}.

(** The state after some calls on an object. *)
Record after (self : BasicTokenizer) (fs : FS) (pairs : list (string * Z))
    (self' : BasicTokenizer) (fs' : FS) : Prop := {
  after_linked : linked self';
  after_prefix : vocab self `prefix_of` vocab self';
  after_ids : token_to_id self ⊆ token_to_id self';
  after_pairs : ∀ token id, (token, id) ∈ pairs → token_to_id self' !! token = Some id;
  after_nodup : NoDup (vocab self) → NoDup (vocab self');
  after_store : NoDup (vocab self) → store_ok fs → store_ok fs';
  after_loadable : loadable fs → loadable fs';
  after_other : ∀ path, path ≠ vocab_file → fs' !! path = fs !! path
}.

(** ** Further definitions: the tokenizer *)

(** The tokens of a list that are not known, each once, in the order in
    which they first occur. *)
Fixpoint unseen (known tokens : list string) : list string :=
  match tokens with
  | [] => []
  | token :: tokens =>
      if decide (token ∈ known) then unseen known tokens
      else token :: unseen (known ++ [token]) tokens
  end.

(** The file holds the list [l]. *)
Definition holds (fs : FS) (l : list string) : Prop :=
  ∃ text, fs !! vocab_file = Some text ∧ json_load text = Ok l.

(** The id is a position of the list, and the token is there. *)
Definition entry (l : list string) (token : string) (id : Z) : Prop :=
  0 ≤ id ∧ l !! Z.to_nat id = Some token.

(** The arguments that pass the four checks of [main]. *)
Definition valid_args (args : Args) : Prop :=
  (args_encode args = true ∧ args_decode args = false
   ∧ falsy_text (args_text args) = false)
  ∨ (args_encode args = false ∧ args_decode args = true
     ∧ falsy_ids (args_token_ids args) = false).

(** A character that is written to a file as it is: space to tilde. *)
Definition printable (c : ascii) : Prop := 32 ≤ ord c ≤ 126.

Fixpoint all_printable (s : string) : Prop :=
  match s with
  | EmptyString => True
  | String c rest => printable c ∧ all_printable rest
  end.

(** The entry CHAR of the table, lines 41-44. [chr] gives the character of
    a code point of the alphabet; any other argument, for which [chr]
    raises or gives a character beyond the alphabet, has no value here. *)
Definition chr (n : Z) : option ascii :=
  if (0 <=? n) && (n <? 256) then Some (ascii_of_N (Z.to_N n)) else None.

Definition CHAR_encode (text : string) : list Z :=
  ord <$> list_ascii_of_string text.

Definition CHAR_decode (token_ids : list Z) : option string :=
  chars ← mapM chr token_ids; Some (string_of_list_ascii chars).

(** The list starts with the two markers. *)
Definition marked (l : list string) : Prop :=
  ["<|BOS|>"; "<|EOS|>"] `prefix_of` l.

(** The vocabulary file is absent, or holds a list without repetition that
    starts with the two markers, as the files do that the tokenizer writes
    when it starts without a file. *)
Definition store_marked (fs : FS) : Prop :=
  ∀ text, fs !! vocab_file = Some text →
    ∃ l, json_load text = Ok l ∧ NoDup l ∧ marked l.

(** An object in order whose list starts with the two markers. *)
Definition well_marked (self : BasicTokenizer) : Prop :=
  linked self ∧ NoDup (vocab self) ∧ marked (vocab self).

(** ** [llm_driver.py] *)

Definition LF : ascii := "010"%char.
Definition CR : ascii := "013"%char.

(** Reading a file in text mode: a carriage return, with the line feed
    that follows it if there is one, is read as one line feed. *)
Fixpoint universal_newlines (s : string) : string :=
  match s with
  | EmptyString => ""
  | String c rest =>
      if Ascii.eqb c CR then
        String LF
          match rest with
          | String d rest' =>
              if Ascii.eqb d LF then universal_newlines rest'
              else universal_newlines rest
          | EmptyString => ""
          end
      else String c (universal_newlines rest)
  end.

(** [f.readlines()] on the text read: the lines, each with its line feed;
    the last line has none when the text does not end with one. [line] is
    the text since the last line feed. *)
Fixpoint readlines_from (line : string) (s : string) : list string :=
  match s with
  | EmptyString => if decide (line = "") then [] else [line]
  | String c rest =>
      if Ascii.eqb c LF then (line +:+ String LF "") :: readlines_from "" rest
      else readlines_from (line +:+ String c "") rest
  end.

Definition readlines (text : string) : list string :=
  readlines_from "" (universal_newlines text).

(** A bound of a slice of a list of [n] items. *)
Definition slice_index (n i : Z) : Z :=
  if i <? 0 then Z.max (i + n) 0 else Z.min i n.

(** [l[start:stop]] *)
Definition py_slice {A} (l : list A) (start stop : Z) : list A :=
  let a := slice_index (len l) start in
  let b := slice_index (len l) stop in
  take (Z.to_nat (b - a)) (drop (Z.to_nat a) l).

(** [[line.strip() for line in lines if line.strip()]] *)
Definition nonblank_stripped (lines : list string) : list string :=
  strip <$> filter (λ line, strip line ≠ "") lines.

(** What [read_lines_from_file] gives: the lines, or the error of [open]
    when there is no file at the path. *)
Inductive read_result : Type :=
  | Lines (lines : list string)
  | FileNotFoundError (path : string).

Definition read_lines_from_file (file_path : string) (start_line end_line : Z)
    (fs : FS) : read_result :=
  match fs !! file_path with
  | None => FileNotFoundError file_path
  | Some text =>
      let lines := readlines text in
      let start_line := if start_line <? 0 then 0 else start_line in
      let end_line :=
        if (end_line =? -1) || (len lines <=? end_line) then len lines else end_line in
      if end_line <=? start_line then Lines []
      else
        let selected_lines := py_slice lines start_line end_line in
        Lines (nonblank_stripped selected_lines)
  end.

Section Driver.
Context (external_encode : strategy → string → FS → result (list Z * FS)).
Context (external_decode : strategy → list Z → FS → result (string * FS)).

Fixpoint encode_data (lines : list string) (tokenizer_type : string) (fs : FS)
    : result (list (list Z) * FS) :=
  match lines with
  | [] => Ok ([], fs)
  | line :: lines =>
      '(token_ids, fs) ← encode_text external_encode line tokenizer_type fs;
      '(encoded_data, fs) ← encode_data lines tokenizer_type fs;
      Ok (token_ids :: encoded_data, fs)
  end.

Fixpoint decode_data (encoded_data : list (list Z)) (tokenizer_type : string) (fs : FS)
    : result (list string * FS) :=
  match encoded_data with
  | [] => Ok ([], fs)
  | token_ids :: encoded_data =>
      '(text, fs) ← decode_text external_decode token_ids tokenizer_type fs;
      '(decoded_data, fs) ← decode_data encoded_data tokenizer_type fs;
      Ok (text :: decoded_data, fs)
  end.
End Driver.

Definition first_not_space (s : string) : Prop :=
  match s with
  | EmptyString => True
  | String c _ => isspace c = false
  end.

Fixpoint last_not_space (s : string) : Prop :=
  match s with
  | EmptyString => True
  | String c EmptyString => isspace c = false
  | String _ rest => last_not_space rest
  end.

(** The items of a list at the positions [i] to [j-1]. *)
Definition range {A} (l : list A) (i j : nat) : list A :=
  take (j - i) (drop i l).

(** What the decode entry of strategy B gives back for the ids of a line. *)
Definition decoded_line (line : string) : string :=
  "<|BOS|>" +:+ remove_spaces line +:+ "<|EOS|>".

(** ** [do_download.py] *)

Definition DOWNLOAD_FOLDER : string := "./data/original_text".

Definition starts_with_sep (s : string) : bool :=
  match s with String c _ => Ascii.eqb c "/" | EmptyString => false end.

Fixpoint ends_with_sep (s : string) : bool :=
  match s with
  | EmptyString => false
  | String c EmptyString => Ascii.eqb c "/"
  | String _ rest => ends_with_sep rest
  end.

(** [os.path.join] on two components. *)
Definition os_path_join (a b : string) : string :=
  if starts_with_sep b then b
  else if bool_decide (a = "") || ends_with_sep a then a +:+ b
  else a +:+ "/" +:+ b.

Definition generate_filepath (index : Z) : string :=
  let filename := "book_" +:+ pretty index +:+ ".txt" in
  os_path_join DOWNLOAD_FOLDER filename.

(** What [download_books] and [main] print themselves. *)
Inductive message : Type :=
  | Msg_retrying (book_id : Z)
  | Msg_no_more_ids
  | Msg_max_retries
  | Msg_warning (successful_downloads num_books : Z)
  | Msg_num_books
  | Msg_retry_count
  | Msg_fetching
  | Msg_no_book_ids
  | Msg_downloading (num_books : Z)
  | Msg_complete.

Section Download.
(** The network and the disk are a world [World]; the two functions that
    use the network are taken as given. *)
Context {World : Type}.
Context (download_book : Z → string → World → bool * World).
Context (fetch_random_book_ids : Z → World → list Z * World).

(** The inner loop of [download_books], entered with a book id in hand:
    whether a download succeeded, the ids left, the world, the messages. *)
Fixpoint attempts (retry_count : Z) (book_ids : list Z) (book_id : Z)
    (filepath : string) (retries : Z) (w : World) (log : list message)
    : bool * list Z * World * list message :=
  if retries <=? retry_count then
    let '(ok, w) := download_book book_id filepath w in
    if ok then (true, book_ids, w, log)
    else
      let retries := retries + 1 in
      if retries <=? retry_count then
        match book_ids with
        | next :: rest =>
            attempts retry_count rest next filepath retries w
              (log ++ [Msg_retrying next])
        | [] => (false, [], w, log ++ [Msg_no_more_ids])
        end
      else (false, book_ids, w, log ++ [Msg_max_retries])
  else (false, book_ids, w, log).

(** The state of the outer loop: the ids left, [successful_downloads],
    [index], the world, the messages. *)
Definition download_state : Type := list Z * Z * Z * World * list message.

(** The outer loop; [fuel] bounds its iterations. *)
Fixpoint download_loop (fuel : nat) (num_books retry_count : Z) (st : download_state)
    : option download_state :=
  let '(book_ids, successful_downloads, index, w, log) := st in
  match book_ids with
  | book_id :: rest =>
      if successful_downloads <? num_books then
        match fuel with
        | O => None
        | S fuel =>
            let filepath := generate_filepath index in
            let '(ok, rest, w, log) :=
              attempts retry_count rest book_id filepath 0 w log in
            if ok then
              download_loop fuel num_books retry_count
                (rest, successful_downloads + 1, index + 1, w, log)
            else
              download_loop fuel num_books retry_count
                (rest, successful_downloads, index, w, log)
        end
      else Some st
  | [] => Some st
  end.

(** [download_books]: the ids left in the list, the number of downloads,
    the world and the messages. An iteration of the outer loop takes an id
    from the list, so the length of the list bounds the iterations. *)
Definition download_books (book_ids : list Z) (num_books retry_count : Z) (w : World)
    : option (list Z * Z * World * list message) :=
  '(book_ids, successful_downloads, _, w, log) ←
    download_loop (length book_ids) num_books retry_count (book_ids, 0, 1, w, []);
  let log :=
    if successful_downloads <? num_books
    then log ++ [Msg_warning successful_downloads num_books] else log in
  Some (book_ids, successful_downloads, w, log).

(** [main] after the parsing of the arguments. Creating the folder leaves
    the world as it is. *)
Definition download_main (num_books retry_count : Z) (w : World)
    : option (World * list message) :=
  if num_books <=? 0 then Some (w, [Msg_num_books])
  else if retry_count <? 0 then Some (w, [Msg_retry_count])
  else
    let '(book_ids, w) := fetch_random_book_ids num_books w in
    match book_ids with
    | [] => Some (w, [Msg_fetching; Msg_no_book_ids])
    | _ =>
        '(_, _, w, log) ← download_books book_ids num_books retry_count w;
        Some (w, [Msg_fetching; Msg_downloading num_books] ++ log ++ [Msg_complete])
    end.

(** The ids tried one after the other, each once, while downloads are
    missing: the ids left, the number of downloads, the next index, the
    world. *)
Fixpoint try_in_order (num_books : Z) (book_ids : list Z)
    (successful_downloads index : Z) (w : World) : list Z * Z * Z * World :=
  match book_ids with
  | [] => ([], successful_downloads, index, w)
  | book_id :: rest =>
      if successful_downloads <? num_books then
        let '(ok, w) := download_book book_id (generate_filepath index) w in
        if ok then try_in_order num_books rest (successful_downloads + 1) (index + 1) w
        else try_in_order num_books rest successful_downloads index w
      else (book_ids, successful_downloads, index, w)
  end.
End Download.

(** * Properties *)

(** ** The examples of the specification, run *)

Example segment_hello :
  segment "Hello, world!" = ["Hello"; ","; "world"; "!"].
Proof. vm_compute. reflexivity. Qed.

Example json_dump_markers :
  json_dump ["<|BOS|>"; "a\b"; String "010" "~"]
  = String "[" (String dquote ("<|BOS|>" +:+ String dquote (", " +:+
      String dquote ("a\\b" +:+ String dquote (", " +:+
        String dquote ("\n~" +:+ String dquote "]")))))).
Proof. vm_compute. reflexivity. Qed.

Example json_load_dump :
  json_load (json_dump ["<|BOS|>"; "a\b"; String dquote (String "200" "é")])
  = Ok ["<|BOS|>"; "a\b"; String dquote (String "200" "é")].
Proof. vm_compute. reflexivity. Qed.

(** ** Strings *)

#[local] Arguments append : simpl nomatch.

Lemma append_nil_r (s : string) : s +:+ "" = s.
Proof. induction s as [|c s IH]; simpl; [done | by rewrite IH]. Qed.

Lemma append_assoc (s t u : string) : (s +:+ t) +:+ u = s +:+ (t +:+ u).
Proof. induction s as [|c s IH]; simpl; [done | by rewrite IH]. Qed.

Lemma append_snoc (s : string) (c : ascii) (t : string) :
  (s +:+ String c "") +:+ t = s +:+ String c t.
Proof. by rewrite append_assoc. Qed.

Lemma concat_cons (x : string) (l : list string) :
  String.concat "" (x :: l) = x +:+ String.concat "" l.
Proof. destruct l; simpl; [by rewrite append_nil_r | done]. Qed.

Lemma concat_app (l k : list string) :
  String.concat "" (l ++ k) = String.concat "" l +:+ String.concat "" k.
Proof.
  induction l as [|x l IH]; [done |].
  change ((x :: l) ++ k) with (x :: (l ++ k)).
  by rewrite !concat_cons, IH, append_assoc.
Qed.

Lemma substring_of_refl (s : string) : substring_of s s.
Proof. exists "", "". simpl. by rewrite append_nil_r. Qed.

Lemma substring_of_append (s t u v : string) :
  substring_of s u → substring_of s (t +:+ u +:+ v).
Proof.
  intros (b & a & ->). exists (t +:+ b), (a +:+ v).
  by rewrite !append_assoc.
Qed.

(** ** White space and the class of the pattern *)

Lemma in_class_not_space (c : ascii) : in_class c = true → isspace c = false.
Proof.
  unfold in_class. intros Hc%bool_decide_eq_true.
  unfold punctuation in Hc.
  repeat (apply elem_of_cons in Hc as [-> | Hc]; [by vm_compute |]).
  by apply elem_of_nil in Hc.
Qed.

Lemma dash_plain : in_class "-" = false ∧ isspace "-" = false.
Proof. by vm_compute. Qed.

Lemma remove_spaces_app (s t : string) :
  remove_spaces (s +:+ t) = remove_spaces s +:+ remove_spaces t.
Proof.
  induction s as [|c s IH]; simpl; [done |].
  destruct (isspace c); simpl; by rewrite IH.
Qed.

Lemma no_space_app (s t : string) : no_space (s +:+ t) ↔ no_space s ∧ no_space t.
Proof. induction s as [|c s IH]; simpl; [tauto | rewrite IH; tauto]. Qed.

Lemma no_space_remove (s : string) : no_space s → remove_spaces s = s.
Proof.
  induction s as [|c s IH]; simpl; [done |].
  intros [-> Hs]. by rewrite IH.
Qed.

Lemma lstrip_no_space (s : string) : no_space s → lstrip s = s.
Proof. destruct s as [|c s]; simpl; [done |]. by intros [-> _]. Qed.

Lemma rstrip_no_space (s : string) : no_space s → rstrip s = s.
Proof.
  induction s as [|c s IH]; simpl; [done |].
  intros [Hc Hs]. rewrite IH by done. rewrite Hc. by destruct s.
Qed.

Lemma strip_no_space (s : string) : no_space s → strip s = s.
Proof.
  intros Hs. unfold strip. rewrite lstrip_no_space by done.
  by apply rstrip_no_space.
Qed.

Lemma strip_space (c : ascii) : isspace c = true → strip (String c "") = "".
Proof. intros Hc. unfold strip. simpl. by rewrite Hc. Qed.

(** ** The split *)

(** The four cases of one step of the scan. *)
Lemma re_split_from_step (piece : string) (c : ascii) (rest : string) :
  (in_class c = true ∧
     re_split_from piece (String c rest) = piece :: String c "" :: re_split_from "" rest)
  ∨ (c = "-"%char ∧ ∃ rest', rest = String "-" rest' ∧
     re_split_from piece (String c rest) = piece :: "--" :: re_split_from "" rest')
  ∨ (in_class c = false ∧ isspace c = true ∧
     re_split_from piece (String c rest) = piece :: String c "" :: re_split_from "" rest)
  ∨ (plain c ∧ ¬ (c = "-"%char ∧ starts_dash rest) ∧
     re_split_from piece (String c rest) = re_split_from (piece +:+ String c "") rest).
Proof.
  simpl. destruct (in_class c) eqn:Hclass; [by left |]. right.
  destruct (Ascii.eqb c "-") eqn:Hdash.
  - apply Ascii.eqb_eq in Hdash as ->.
    destruct rest as [|d rest'].
    + right; right. split; [by vm_compute |]. split; [| done].
      by intros [_ [? ?]].
    + destruct (Ascii.eqb d "-") eqn:Hd.
      * apply Ascii.eqb_eq in Hd as ->. left. split; [done |]. by exists rest'.
      * right; right. split; [by vm_compute |]. split; [| done].
        intros [_ [? [= -> _]]]. by rewrite Ascii.eqb_refl in Hd.
  - apply Ascii.eqb_neq in Hdash.
    destruct (isspace c) eqn:Hspace; [by right; left |].
    right; right. split; [done |]. split; [| done]. by intros [? _].
Qed.

(** Induction along the scan: a step eats one character or two. *)
Lemma scan_ind (P : string → Prop) :
  P "" →
  (∀ c rest, P rest → (∀ rest', rest = String "-" rest' → P rest') → P (String c rest)) →
  ∀ s, P s.
Proof.
  intros Hnil Hcons s.
  cut (P s ∧ ∀ d s', s = String d s' → P s'); [tauto |].
  induction s as [|c s [IH1 IH2]].
  - split; [done | by intros ? ? [=]].
  - split; [| by intros ? ? [= _ <-]].
    apply Hcons; [done |]. intros rest' Hrest. by apply (IH2 "-"%char).
Qed.

Lemma re_split_from_concat (text piece : string) :
  String.concat "" (re_split_from piece text) = piece +:+ text.
Proof.
  revert piece. induction text as [|c rest IH IH'] using scan_ind; intros piece.
  - simpl. by rewrite append_nil_r.
  - destruct (re_split_from_step piece c rest)
      as [[_ ->] | [(-> & rest' & -> & ->) | [(_ & _ & ->) | (_ & _ & ->)]]].
    + by rewrite !concat_cons, IH.
    + by rewrite !concat_cons, (IH' rest').
    + by rewrite !concat_cons, IH.
    + by rewrite IH, append_snoc.
Qed.

Lemma all_plain_snoc (s : string) (c : ascii) :
  all_plain s → plain c → all_plain (s +:+ String c "").
Proof. induction s as [|d s IH]; simpl; [done | tauto]. Qed.

Lemma starts_dash_snoc (s : string) (c : ascii) :
  starts_dash (s +:+ String c "") ↔ starts_dash s ∨ (s = "" ∧ c = "-"%char).
Proof.
  destruct s as [|d s]; simpl.
  - split.
    + intros [? [= -> _]]. by right.
    + intros [[? [=]] | [_ ->]]. by exists "".
  - split.
    + intros [? [= -> _]]. left. by eexists.
    + intros [[? [= -> _]] | [[=] _]]. by eexists.
Qed.

Lemma dash_free_snoc (s : string) (c : ascii) :
  dash_free s → ¬ (ends_dash s ∧ c = "-"%char) → dash_free (s +:+ String c "").
Proof.
  induction s as [|d s IH]; simpl.
  - intros _ _. split; [| done]. by intros [_ [? [=]]].
  - intros [Hd Hs] Hend. split.
    + rewrite starts_dash_snoc. intros [-> [Hst | [-> ->]]]; [tauto |].
      by apply Hend.
    + apply IH; [done |]. intros [He ->]. apply Hend. split; [| done].
      destruct s; [done | done].
Qed.

Lemma ends_dash_snoc (s : string) (c : ascii) :
  ends_dash (s +:+ String c "") ↔ c = "-"%char.
Proof.
  induction s as [|d s IH]; simpl; [done |].
  destruct (s +:+ String c "") eqn:E; [by destruct s | done].
Qed.

Lemma re_split_from_pieces (text piece : string) :
  all_plain piece → dash_free piece → ¬ (ends_dash piece ∧ starts_dash text) →
  Forall split_piece (re_split_from piece text).
Proof.
  revert piece. induction text as [|c rest IH IH'] using scan_ind;
    intros piece Hplain Hfree Hend.
  - simpl. repeat constructor; done.
  - assert (Hnil : ¬ (ends_dash "" ∧ starts_dash rest)) by (by intros [[] _]).
    destruct (re_split_from_step piece c rest)
      as [[Hc ->] | [(-> & rest' & -> & ->) | [(_ & Hc & ->) | (Hc & Hdd & ->)]]].
    + constructor; [by constructor |].
      constructor; [apply piece_delimiter; right; by exists c |].
      by apply IH.
    + constructor; [by constructor |].
      constructor; [apply piece_delimiter; by left |].
      apply (IH' rest'); [done.. |]. by intros [[] _].
    + constructor; [by constructor |].
      constructor; [by apply (piece_space _ c) |].
      by apply IH.
    + apply IH.
      * by apply all_plain_snoc.
      * apply dash_free_snoc; [done |]. intros [He ->]. apply Hend.
        split; [done | by eexists].
      * rewrite ends_dash_snoc. done.
Qed.

(** ** The segmenter *)

Lemma all_plain_no_space (s : string) : all_plain s → no_space s.
Proof. induction s as [|c s IH]; simpl; [done |]. intros [[_ Hc] Hs]. auto. Qed.

Lemma is_delimiter_no_space (s : string) : is_delimiter s → no_space s.
Proof.
  intros [-> | (c & -> & Hc)]; [by vm_compute |].
  simpl. split; [by apply in_class_not_space | done].
Qed.

Lemma is_delimiter_nonempty (s : string) : is_delimiter s → s ≠ "".
Proof. by intros [-> | (c & -> & Hc)]. Qed.

(** Stripping a piece of the split removes its white space: all of the
    piece or nothing. *)
Lemma strip_split_piece (p : string) :
  split_piece p →
  strip p = remove_spaces p ∧ (strip p = "" ∨ (strip p = p ∧ no_space p)).
Proof.
  intros [Hplain _ | Hdelim | c -> Hc].
  - apply all_plain_no_space in Hplain.
    rewrite strip_no_space, no_space_remove by done. auto.
  - apply is_delimiter_no_space in Hdelim.
    rewrite strip_no_space, no_space_remove by done. auto.
  - rewrite strip_space by done. simpl. rewrite Hc. auto.
Qed.

Lemma re_split_pieces (text : string) : Forall split_piece (re_split text).
Proof. apply re_split_from_pieces; [done | done |]. by intros [[] _]. Qed.

(** A segment is a piece of the split that stripping leaves as it is. *)
Lemma segment_elem (text piece : string) :
  piece ∈ segment text →
  piece ∈ re_split text ∧ piece ≠ "" ∧ strip piece = piece ∧ no_space piece.
Proof.
  unfold segment. intros (p & -> & [Hne Hp]%list_elem_of_filter)%list_elem_of_fmap.
  pose proof (re_split_pieces text) as Hall.
  rewrite Forall_forall in Hall.
  destruct (strip_split_piece p (Hall p Hp)) as [_ [He | [He Hs]]]; [done |].
  rewrite He in *. by rewrite He.
Qed.

Lemma segment_concat_pieces (ps : list string) :
  Forall split_piece ps →
  String.concat "" (strip <$> filter (λ item, strip item ≠ "") ps)
  = remove_spaces (String.concat "" ps).
Proof.
  induction 1 as [|p ps Hp _ IH]; [done |].
  rewrite concat_cons, remove_spaces_app, <- IH.
  destruct (strip_split_piece p Hp) as [<- _].
  destruct (decide (strip p = "")) as [He | Hne].
  - rewrite filter_cons_False by (intros ?; done). by rewrite He.
  - rewrite filter_cons_True by done. by rewrite fmap_cons, concat_cons.
Qed.

(** The segments, one after the other, are the text without its white
    space: nothing else is lost, nothing is moved. *)
Lemma segment_concat (text : string) :
  String.concat "" (segment text) = remove_spaces text.
Proof.
  unfold segment. rewrite segment_concat_pieces by apply re_split_pieces.
  unfold re_split. by rewrite re_split_from_concat.
Qed.

Lemma elem_substring_concat (x : string) (l : list string) :
  x ∈ l → substring_of x (String.concat "" l).
Proof.
  induction l as [|y l IH]; [by intros ?%elem_of_nil |].
  rewrite concat_cons. intros [-> | Hx]%elem_of_cons.
  - by exists "", (String.concat "" l).
  - destruct (IH Hx) as (b & a & ->). exists (y +:+ b), a.
    by rewrite append_assoc.
Qed.

Lemma segment_substring (text piece : string) :
  piece ∈ segment text → substring_of piece text.
Proof.
  intros [Hp _]%segment_elem.
  apply elem_substring_concat in Hp.
  unfold re_split in Hp. by rewrite re_split_from_concat in Hp.
Qed.

(** A segment is a delimiter, or holds none. *)
Lemma segment_kind (text piece : string) :
  piece ∈ segment text →
  is_delimiter piece ∨ (all_plain piece ∧ dash_free piece).
Proof.
  intros (Hp & Hne & _ & Hs)%segment_elem.
  pose proof (re_split_pieces text) as Hall.
  rewrite Forall_forall in Hall.
  destruct (Hall piece Hp) as [? ? | ? | c -> Hc]; [auto.. |].
  simpl in Hs. destruct Hs as [Hs _]. congruence.
Qed.

Lemma dash_free_substring (s : string) : dash_free s → ¬ substring_of "--" s.
Proof.
  intros Hs (b & a & ->). induction b as [|c b IH]; simpl in Hs.
  - destruct Hs as [Hs _]. apply Hs. split; [done | by eexists].
  - destruct Hs as [_ Hs]. by apply IH.
Qed.

Lemma all_plain_elem (s : string) (c : ascii) :
  all_plain s → substring_of (String c "") s → plain c.
Proof.
  intros Hs (b & a & ->). induction b as [|d b IH]; simpl in Hs.
  - by destruct Hs.
  - destruct Hs as [_ Hs]. by apply IH.
Qed.

(** ** The vocabulary file *)

(** Reading back one escaped character. *)
Lemma scanstring_escape_char (c : ascii) (acc t : string) :
  scanstring acc (escape_char c +:+ t) = scanstring (acc +:+ String c "") t.
Proof. destruct c as [[] [] [] [] [] [] [] []]; reflexivity. Qed.

Lemma scanstring_escape (s acc rest : string) :
  scanstring acc (escape s +:+ String dquote rest) = Ok (acc +:+ s, rest).
Proof.
  revert acc. induction s as [|c s IH]; intros acc.
  - simpl. by rewrite append_nil_r.
  - simpl escape. rewrite append_assoc, scanstring_escape_char, IH.
    by rewrite append_snoc.
Qed.

Lemma scanstring_encoded (s rest : string) :
  ∃ body, encode_basestring_ascii s +:+ rest = String dquote body
          ∧ scanstring "" body = Ok (s, rest).
Proof.
  exists (escape s +:+ String dquote rest). split.
  - unfold encode_basestring_ascii. simpl. by rewrite append_assoc.
  - apply scanstring_escape.
Qed.

Lemma parse_elements_dump (l : list string) (fuel : nat) (rest : string) :
  l ≠ [] → (length l ≤ fuel)%nat →
  parse_elements fuel
    (String.concat ", " (encode_basestring_ascii <$> l) +:+ String "]" rest)
  = Ok (l, rest).
Proof.
  revert fuel. induction l as [|v l IH]; [done |].
  intros fuel _ Hfuel. destruct fuel as [|fuel]; [simpl in Hfuel; lia |].
  destruct l as [|v' l].
  - simpl String.concat.
    destruct (scanstring_encoded v (String "]" rest)) as (body & -> & Hbody).
    simpl. by rewrite Hbody.
  - change (String.concat ", " (encode_basestring_ascii <$> v :: v' :: l))
      with (encode_basestring_ascii v +:+ ", "
            +:+ String.concat ", " (encode_basestring_ascii <$> v' :: l)).
    assert (Hnext : ∃ t, String.concat ", " (encode_basestring_ascii <$> v' :: l)
                         +:+ String "]" rest = String dquote t).
    { destruct l; simpl; eauto. }
    destruct Hnext as [t Ht].
    specialize (IH fuel). rewrite Ht in IH.
    set (tail := String.concat ", " (encode_basestring_ascii <$> v' :: l)) in *.
    rewrite !append_assoc.
    destruct (scanstring_encoded v (", " +:+ tail +:+ String "]" rest))
      as (body & -> & Hbody).
    simpl parse_elements. rewrite Hbody. simpl. rewrite Ht. simpl skip_ws.
    rewrite IH; [done | done |]. simpl in *. lia.
Qed.

Lemma length_append (s t : string) :
  String.length (s +:+ t) = (String.length s + String.length t)%nat.
Proof. induction s as [|c s IH]; simpl; [done | by rewrite IH]. Qed.

Lemma length_concat_encoded (l : list string) :
  (length l ≤ String.length (String.concat ", " (encode_basestring_ascii <$> l)))%nat.
Proof.
  induction l as [|v l IH]; [done |].
  destruct l as [|v' l]; [simpl; lia |].
  change (String.concat ", " (encode_basestring_ascii <$> v :: v' :: l))
    with (encode_basestring_ascii v +:+ ", "
          +:+ String.concat ", " (encode_basestring_ascii <$> v' :: l)).
  rewrite !length_append. simpl in *. lia.
Qed.

(** What [json.dump] writes, [json.load] reads back. *)
Lemma json_load_dump_id (l : list string) : json_load (json_dump l) = Ok l.
Proof.
  destruct l as [|v l]; [done |].
  unfold json_dump.
  set (items := String.concat ", " (encode_basestring_ascii <$> v :: l)).
  assert (Hitems : ∃ t, items +:+ "]" = String dquote t).
  { subst items. destruct l; simpl; eauto. }
  destruct Hitems as [t Ht].
  pose proof (parse_elements_dump (v :: l)
    (String.length ("[" +:+ items +:+ "]")) "") as Hparse.
  fold items in Hparse. rewrite Ht in Hparse.
  unfold json_load. simpl skip_ws. rewrite Ht.
  change (Ascii.eqb "[" "[") with true. cbv iota.
  change (skip_ws (String dquote t)) with (String dquote t).
  change (Ascii.eqb dquote "]") with false. cbv iota.
  rewrite Hparse; [done | done |].
  rewrite <- Ht, !length_append. pose proof (length_concat_encoded (v :: l)).
  fold items in H. change (length (v :: l)) with (S (length l)) in H.
  simpl. lia.
Qed.

(** ** The two dictionaries of a list *)

Lemma len_app {A} (l k : list A) : len (l ++ k) = len l + len k.
Proof. unfold len. rewrite length_app. lia. Qed.

Lemma enumerate_snoc {A} (l : list A) (x : A) :
  enumerate (l ++ [x]) = enumerate l ++ [(len l, x)].
Proof.
  unfold enumerate. rewrite imap_app. simpl. unfold len.
  by rewrite Nat.add_0_r.
Qed.

Lemma dict_of_snoc `{Countable K} {V} (items : list (K * V)) (k : K) (v : V) :
  dict_of (items ++ [(k, v)]) = <[k := v]> (dict_of items).
Proof. unfold dict_of. by rewrite foldl_snoc. Qed.

Lemma token_index_snoc (l : list string) (token : string) :
  token_index (l ++ [token]) = <[token := len l]> (token_index l).
Proof.
  unfold token_index. rewrite enumerate_snoc, fmap_app. simpl.
  by rewrite dict_of_snoc.
Qed.

Lemma id_index_snoc (l : list string) (token : string) :
  dict_of (enumerate (l ++ [token])) = <[len l := token]> (dict_of (enumerate l)).
Proof. by rewrite enumerate_snoc, dict_of_snoc. Qed.

(** The dictionary of the ids is the list, read by position. *)
Lemma id_index_lookup (l : list string) (id : Z) :
  dict_of (enumerate l) !! id
  = if decide (0 ≤ id) then l !! Z.to_nat id else None.
Proof.
  induction l as [|token l IH] using rev_ind.
  - unfold dict_of. simpl. rewrite lookup_empty. by case_decide.
  - rewrite id_index_snoc, lookup_insert. unfold len.
    destruct (decide (Z.of_nat (length l) = id)) as [Hid | Hid].
    + subst id. rewrite decide_True by lia.
      rewrite Nat2Z.id. by rewrite list_lookup_middle.
    + rewrite IH. case_decide as Hpos; [| done].
      destruct (decide (Z.to_nat id < length l)%nat) as [Hlt | Hge].
      * by rewrite lookup_app_l.
      * rewrite !lookup_ge_None_2; [done | | lia].
        rewrite length_app. simpl. lia.
Qed.

(** A token of the index is in the list, at the position the index gives. *)
Lemma token_index_lookup_Some (l : list string) (token : string) (id : Z) :
  token_index l !! token = Some id →
  0 ≤ id < len l ∧ l !! Z.to_nat id = Some token.
Proof.
  induction l as [|x l IH] using rev_ind.
  - unfold token_index, dict_of. simpl. by rewrite lookup_empty.
  - rewrite token_index_snoc, lookup_insert, len_app. unfold len in *. simpl.
    case_decide as Hx.
    + intros [= <-]. subst x. split; [lia |].
      rewrite Nat2Z.id. by rewrite list_lookup_middle.
    + intros [Hid Hl]%IH. split; [lia |].
      rewrite lookup_app_l; [done | lia].
Qed.

Lemma token_index_lookup_None (l : list string) (token : string) :
  token_index l !! token = None ↔ token ∉ l.
Proof.
  induction l as [|x l IH] using rev_ind.
  - unfold token_index, dict_of. simpl. rewrite lookup_empty.
    split; [intros _; apply not_elem_of_nil | done].
  - rewrite token_index_snoc, lookup_insert, not_elem_of_app.
    case_decide as Hx.
    + subst x. split; [done |]. intros [_ Hn]. exfalso. apply Hn. by left.
    + rewrite IH. split; [| tauto]. intros Hn. split; [done |].
      by intros ->%list_elem_of_singleton.
Qed.

(** Without repetition, the index of a token is its position. *)
Lemma token_index_lookup_NoDup (l : list string) (i : nat) (token : string) :
  NoDup l → l !! i = Some token → token_index l !! token = Some (Z.of_nat i).
Proof.
  intros Hnd Hi.
  destruct (token_index l !! token) as [id |] eqn:Hid.
  - apply token_index_lookup_Some in Hid as [Hrange Hid].
    f_equal. pose proof (NoDup_lookup _ _ _ _ Hnd Hi Hid). lia.
  - apply token_index_lookup_None in Hid. exfalso. apply Hid.
    by eapply list_elem_of_lookup_2.
Qed.

Lemma linked_append (self : BasicTokenizer) (token : string) :
  linked self → linked (append_token self token).
Proof.
  intros [Ht Hi]. unfold linked, append_token. simpl.
  rewrite token_index_snoc, id_index_snoc, len_app, Ht, Hi.
  change (len [token]) with 1.
  by replace (len (vocab self) + 1 - 1) with (len (vocab self)) by lia.
Qed.

Lemma linked_consistent (self : BasicTokenizer) :
  linked self → NoDup (vocab self) → consistent self.
Proof.
  intros [Ht Hi] Hnd. split; [| | | done].
  - intros i token Hl. rewrite Ht. by apply token_index_lookup_NoDup.
  - intros token id. rewrite Ht. apply token_index_lookup_Some.
  - intros id token. rewrite Ht, Hi, id_index_lookup. split.
    + case_decide as Hpos; [| done]. intros Hl.
      rewrite (token_index_lookup_NoDup _ _ _ Hnd Hl). f_equal. lia.
    + intros [Hrange Hl]%token_index_lookup_Some.
      by rewrite decide_True by lia.
Qed.

(** ** The loop of [encode] *)

Lemma extends_refl (self : BasicTokenizer) : linked self → extends self self [].
Proof. intros Hl. split; [done | by rewrite app_nil_r | done | done]. Qed.

Lemma extends_trans (a b c : BasicTokenizer) (n1 n2 : list string) :
  extends a b n1 → extends b c n2 → extends a c (n1 ++ n2).
Proof.
  intros [_ Hv1 Hi1 Hn1] [Hl2 Hv2 Hi2 Hn2]. split; [done | | | auto].
  - by rewrite Hv2, Hv1, app_assoc.
  - by etrans.
Qed.

Lemma extends_append (self : BasicTokenizer) (token : string) :
  linked self → token_to_id self !! token = None →
  extends self (append_token self token) [token].
Proof.
  intros Hl Hnone. split.
  - by apply linked_append.
  - done.
  - simpl. by apply insert_subseteq.
  - simpl. intros Hnd. apply NoDup_app. split; [done |]. split.
    + intros x Hx ->%list_elem_of_singleton.
      destruct Hl as [Ht _]. rewrite Ht in Hnone.
      by apply token_index_lookup_None in Hnone.
    + apply NoDup_singleton.
Qed.

Lemma for_each_cons {S A} (body : S → A → result S) (x : A) (l : list A) (st : S) :
  for_each body (x :: l) st = body st x ≫= for_each body l.
Proof. done. Qed.

Lemma encode_token_spec (self : BasicTokenizer) (token_ids : list Z)
    (new_tokens : list string) (token : string) :
  linked self →
  ∃ self' id news,
    encode_token (self, token_ids, new_tokens) token
      = Ok (self', token_ids ++ [id], new_tokens ++ news)
    ∧ extends self self' news
    ∧ token_to_id self' !! token = Some id
    ∧ (news = [] → self' = self).
Proof.
  intros Hl. unfold encode_token.
  destruct (decide (token_to_id self !! token = None)) as [Hnone | Hsome].
  - exists (append_token self token), (len (vocab self ++ [token]) - 1), [token].
    assert (Hid : token_to_id (append_token self token) !! token
                  = Some (len (vocab self ++ [token]) - 1))
      by (simpl; apply lookup_insert_eq).
    unfold getitem. rewrite Hid. split; [done |].
    split; [by apply extends_append |]. split; [done | done].
  - destruct (token_to_id self !! token) as [id |] eqn:Hid; [| done].
    exists self, id, []. unfold getitem. rewrite Hid, app_nil_r.
    split; [done |]. split; [by apply extends_refl |]. done.
Qed.

Lemma for_each_encode_token (tokens : list string) (self : BasicTokenizer)
    (token_ids : list Z) (new_tokens : list string) :
  linked self →
  ∃ self' ids news,
    for_each encode_token tokens (self, token_ids, new_tokens)
      = Ok (self', token_ids ++ ids, new_tokens ++ news)
    ∧ extends self self' news
    ∧ Forall2 (λ token id, token_to_id self' !! token = Some id) tokens ids
    ∧ (news = [] → self' = self).
Proof.
  revert self token_ids new_tokens.
  induction tokens as [|token tokens IH]; intros self token_ids new_tokens Hl.
  - exists self, [], []. rewrite !app_nil_r.
    split; [done |]. split; [by apply extends_refl |]. split; [constructor | done].
  - destruct (encode_token_spec self token_ids new_tokens token Hl)
      as (self1 & id & n1 & Hstep & Hext1 & Hid & Hsame1).
    destruct (IH self1 (token_ids ++ [id]) (new_tokens ++ n1) (ext_linked _ _ _ Hext1))
      as (self' & ids & n2 & Hrest & Hext2 & Hids & Hsame2).
    exists self', (id :: ids), (n1 ++ n2).
    rewrite for_each_cons, Hstep. simpl. rewrite Hrest.
    split; [by rewrite <- !app_assoc |].
    split; [by eapply extends_trans |].
    split.
    + constructor; [| done].
      eapply lookup_weaken; [done |]. apply (ext_ids _ _ _ Hext2).
    + intros [-> ->]%app_eq_nil. rewrite Hsame2 by done. by apply Hsame1.
Qed.

(** What a call of [encode] does on an object whose dictionaries are those
    of its list: it returns, with one id for each token of the framed
    text, the id that the object now has for the token; the list has grown
    by the new tokens; the file is written when asked and when the list
    has grown. *)
Lemma encode_spec (self : BasicTokenizer) (fs : FS) (text : string)
    (vocab_update : bool) :
  linked self →
  ∃ self' ids news,
    encode self fs text vocab_update
      = Ok (ids, self',
            if vocab_update && bool_decide (news ≠ []) then save_vocab self' fs else fs)
    ∧ extends self self' news
    ∧ Forall2 (λ token id, token_to_id self' !! token = Some id) (framed text) ids
    ∧ (news = [] → self' = self).
Proof.
  intros Hl.
  destruct (for_each_encode_token (framed text) self [] [] Hl)
    as (self' & ids & news & Hloop & Hext & Hids & Hsame).
  exists self', ids, news. unfold encode. rewrite Hloop. simpl. done.
Qed.

(** ** The constructor *)

Lemma init_fresh (fs : FS) :
  fs !! vocab_file = None →
  __init__ fs = Ok (fresh_tokenizer, save_vocab fresh_tokenizer fs).
Proof. intros Hnone. unfold __init__. by rewrite Hnone. Qed.

Lemma init_loaded (fs : FS) (text : string) (l : list string) :
  fs !! vocab_file = Some text → json_load text = Ok l →
  __init__ fs
  = Ok ({| vocab := l; token_to_id := token_index l;
           id_to_token := dict_of (enumerate l) |}, fs).
Proof. intros Hsome Hload. unfold __init__. by rewrite Hsome, Hload. Qed.

Lemma init_malformed (fs : FS) (text : string) (e : exn) :
  fs !! vocab_file = Some text → json_load text = Raise e → __init__ fs = Raise e.
Proof. intros Hsome Hload. unfold __init__. by rewrite Hsome, Hload. Qed.

Lemma fresh_linked : linked fresh_tokenizer.
Proof.
  unfold fresh_tokenizer. simpl foldl.
  do 2 apply linked_append. by split.
Qed.

Lemma fresh_vocab : vocab fresh_tokenizer = ["<|BOS|>"; "<|EOS|>"].
Proof. done. Qed.

Lemma synced_save (self : BasicTokenizer) (fs : FS) :
  synced self (save_vocab self fs).
Proof.
  exists (json_dump (vocab self)). split.
  - unfold save_vocab. apply lookup_insert_eq.
  - apply json_load_dump_id.
Qed.

(** The object that the constructor returns: its dictionaries are those of
    its list, and the file holds its list. *)
Lemma init_spec (fs : FS) (self : BasicTokenizer) (fs' : FS) :
  __init__ fs = Ok (self, fs') →
  linked self ∧ synced self fs'
  ∧ ((fs !! vocab_file = None ∧ self = fresh_tokenizer
      ∧ fs' = save_vocab fresh_tokenizer fs)
     ∨ (is_Some (fs !! vocab_file) ∧ fs' = fs)).
Proof.
  destruct (fs !! vocab_file) as [text |] eqn:Hfile.
  - destruct (json_load text) as [l | e] eqn:Hload.
    + rewrite (init_loaded fs text l Hfile Hload). intros [= <- <-].
      split; [by split |]. split; [by exists text |]. right. by split.
    + by rewrite (init_malformed fs text e Hfile Hload).
  - rewrite (init_fresh fs Hfile). intros [= <- <-].
    split; [apply fresh_linked |]. split; [apply synced_save |]. by left.
Qed.

(** Two objects made from the same list are the same object. *)
Lemma linked_eq (a b : BasicTokenizer) :
  linked a → linked b → vocab a = vocab b → a = b.
Proof.
  destruct a as [va ta ia], b as [vb tb ib]. unfold linked. simpl.
  intros [-> ->] [-> ->] ->. done.
Qed.

Lemma init_synced (self : BasicTokenizer) (fs : FS) :
  linked self → synced self fs → __init__ fs = Ok (self, fs).
Proof.
  intros Hl (text & Hfile & Hload).
  rewrite (init_loaded fs text _ Hfile Hload). do 2 f_equal.
  apply linked_eq; [by split | done | done].
Qed.

Lemma store_ok_save (self : BasicTokenizer) (fs : FS) :
  NoDup (vocab self) → store_ok (save_vocab self fs).
Proof.
  intros Hnd text. unfold save_vocab. rewrite lookup_insert_eq.
  intros [= <-]. exists (vocab self). split; [apply json_load_dump_id | done].
Qed.

Lemma store_ok_loadable (fs : FS) : store_ok fs → loadable fs.
Proof. intros Hok text Hfile. destruct (Hok text Hfile) as (l & Hl & _). eauto. Qed.

Lemma loadable_save (self : BasicTokenizer) (fs : FS) : loadable (save_vocab self fs).
Proof.
  intros text. unfold save_vocab. rewrite lookup_insert_eq.
  intros [= <-]. exists (vocab self). apply json_load_dump_id.
Qed.

(** From a store whose file loads, the constructor returns. *)
Lemma init_loadable (fs : FS) :
  loadable fs → ∃ self fs', __init__ fs = Ok (self, fs') ∧ loadable fs'.
Proof.
  intros Hok. destruct (fs !! vocab_file) as [text |] eqn:Hfile.
  - destruct (Hok text Hfile) as (l & Hload).
    eexists _, fs. split; [by apply (init_loaded fs text l) | done].
  - eexists _, _. split; [by apply init_fresh | apply loadable_save].
Qed.

Lemma store_ok_fresh (fs : FS) : fs !! vocab_file = None → store_ok fs.
Proof. intros Hnone text. by rewrite Hnone. Qed.

(** From a store in order the constructor returns, and its list has no
    repetition. *)
Lemma init_store_ok (fs : FS) :
  store_ok fs →
  ∃ self fs', __init__ fs = Ok (self, fs')
              ∧ linked self ∧ NoDup (vocab self) ∧ store_ok fs' ∧ synced self fs'.
Proof.
  intros Hok. destruct (fs !! vocab_file) as [text |] eqn:Hfile.
  - destruct (Hok text Hfile) as (l & Hload & Hnd).
    eexists _, fs. split; [by apply (init_loaded fs text l) |].
    split; [by split |]. split; [done |]. split; [done |]. by exists text.
  - exists fresh_tokenizer, (save_vocab fresh_tokenizer fs).
    assert (Hnd : NoDup (vocab fresh_tokenizer)).
    { rewrite fresh_vocab. apply NoDup_cons. split.
      - by intros [=]%list_elem_of_singleton.
      - apply NoDup_singleton. }
    split; [by apply init_fresh |]. split; [apply fresh_linked |].
    split; [done |]. split; [by apply store_ok_save | apply synced_save].
Qed.

(** ** Calls and sessions *)

Lemma Forall2_zip {A B} (P : A → B → Prop) (l : list A) (k : list B) (x : A) (y : B) :
  Forall2 P l k → (x, y) ∈ zip l k → P x y.
Proof.
  induction 1 as [|a b l k Hab _ IH]; simpl; [by intros ?%elem_of_nil |].
  intros [[= -> ->] | Hin]%elem_of_cons; auto.
Qed.

Lemma invoke_spec (c : call) (self : BasicTokenizer) (fs : FS) :
  linked self →
  ∃ r self' fs',
    invoke c self fs = Ok (r, self', fs')
    ∧ after self fs (emitted_by c r) self' fs'
    ∧ (persistent c → synced self fs → synced self' fs').
Proof.
  intros Hl. destruct c as [text vocab_update | token_ids].
  - destruct (encode_spec self fs text vocab_update Hl)
      as (self' & ids & news & Henc & [Hl' Hv Hi Hn] & Hids & Hsame).
    eexists (Ids ids), self', _. simpl. rewrite Henc. simpl.
    split; [done |]. split; [split |].
    + done.
    + rewrite Hv. by apply prefix_app_r.
    + done.
    + intros token id Hin. by eapply (Forall2_zip _ _ _ _ _ Hids).
    + done.
    + intros Hnd Hok. destruct (vocab_update && bool_decide (news ≠ [])); [| done].
      apply store_ok_save. auto.
    + intros Hok. destruct (vocab_update && bool_decide (news ≠ [])); [| done].
      apply loadable_save.
    + intros path Hpath.
      destruct (vocab_update && bool_decide (news ≠ [])); [| done].
      unfold save_vocab. by rewrite lookup_insert_ne.
    + intros -> Hsync. simpl. case_bool_decide as Hnews.
      * apply synced_save.
      * rewrite Hsame; [done |]. by destruct news.
  - exists (Text (decode self token_ids)), self, fs. simpl.
    split; [done |]. split; [split; try done |]; [| done].
    intros token id []%elem_of_nil.
Qed.

Lemma after_trans self fs p1 self1 fs1 p2 self2 fs2 :
  after self fs p1 self1 fs1 → after self1 fs1 p2 self2 fs2 →
  after self fs (p1 ++ p2) self2 fs2.
Proof.
  intros [Hl1 Hp1 Hi1 Hpa1 Hn1 Hs1 Hlo1 Ho1] [Hl2 Hp2 Hi2 Hpa2 Hn2 Hs2 Hlo2 Ho2].
  split; [done | by etrans | by etrans | | auto | auto | auto |].
  - intros token id [Hin | Hin]%elem_of_app; [| auto].
    eapply lookup_weaken; [by apply Hpa1 | done].
  - intros path Hpath. by rewrite Ho2, Ho1.
Qed.

Lemma emitted_cons (c : call) (cs : list call) (r : reply) (rs : list reply) :
  emitted (c :: cs) (r :: rs) = emitted_by c r ++ emitted cs rs.
Proof. done. Qed.

(** Calls on an object never raise. *)
Lemma run_calls_spec (cs : list call) (self : BasicTokenizer) (fs : FS) :
  linked self →
  ∃ rs self' fs',
    run_calls cs self fs = Ok (rs, self', fs')
    ∧ length rs = length cs
    ∧ after self fs (emitted cs rs) self' fs'
    ∧ (Forall persistent cs → synced self fs → synced self' fs').
Proof.
  revert self fs. induction cs as [|c cs IH]; intros self fs Hl.
  - exists [], self, fs. split; [done |]. split; [done |].
    split; [| done]. split; try done. intros token id []%elem_of_nil.
  - destruct (invoke_spec c self fs Hl) as (r & self1 & fs1 & Hstep & Hafter1 & Hsync1).
    destruct (IH self1 fs1 (after_linked _ _ _ _ _ Hafter1))
      as (rs & self2 & fs2 & Hrest & Hlen & Hafter2 & Hsync2).
    exists (r :: rs), self2, fs2.
    change (run_calls (c :: cs) self fs)
      with (invoke c self fs ≫= λ '(r, self, fs),
              run_calls cs self fs ≫= λ '(rs, self, fs), mret (r :: rs, self, fs)).
    rewrite Hstep. simpl. rewrite Hrest. simpl.
    split; [done |]. split; [by rewrite Hlen |].
    split; [rewrite emitted_cons; by eapply after_trans |].
    intros [Hc Hcs]%Forall_cons Hsync. auto.
Qed.

Lemma bind_Ok {A B} (r : result A) (k : A → result B) (b : B) :
  r ≫= k = Ok b → ∃ a, r = Ok a ∧ k a = Ok b.
Proof. destruct r as [a | e]; [by exists a | done]. Qed.

Lemma reachable_linked (self : BasicTokenizer) : reachable self → linked self.
Proof.
  intros (fs & cs & self0 & fs0 & rs & fs' & Hinit & Hrun).
  apply init_spec in Hinit as (Hl & _ & _).
  destruct (run_calls_spec cs self0 fs0 Hl) as (? & ? & ? & Hrun' & _ & Hafter & _).
  rewrite Hrun in Hrun'. injection Hrun' as <- <- <-.
  apply (after_linked _ _ _ _ _ Hafter).
Qed.

(** A session on a store in order never raises; it leaves the store in
    order and an object whose list has no repetition. *)
Lemma session_spec (cs : list call) (fs : FS) :
  store_ok fs →
  ∃ rs self fs',
    session cs fs = Ok (rs, self, fs')
    ∧ linked self ∧ NoDup (vocab self) ∧ store_ok fs'.
Proof.
  intros Hok.
  destruct (init_store_ok fs Hok) as (self0 & fs0 & Hinit & Hl & Hnd & Hok0 & _).
  destruct (run_calls_spec cs self0 fs0 Hl) as (rs & self & fs' & Hrun & _ & Hafter & _).
  exists rs, self, fs'. unfold session. rewrite Hinit. simpl.
  split; [done |]. destruct Hafter. auto.
Qed.

Lemma run_sessions_spec (ss : list (list call)) (fs : FS) :
  store_ok fs →
  ∃ rss fs', run_sessions ss fs = Ok (rss, fs') ∧ store_ok fs'.
Proof.
  revert fs. induction ss as [|cs ss IH]; intros fs Hok.
  - by exists [], fs.
  - destruct (session_spec cs fs Hok) as (rs & self & fs1 & Hs & _ & _ & Hok1).
    destruct (IH fs1 Hok1) as (rss & fs' & Hrest & Hok').
    exists (rs :: rss), fs'.
    change (run_sessions (cs :: ss) fs)
      with (session cs fs ≫= λ '(rs, _, fs),
              run_sessions ss fs ≫= λ '(rss, fs), mret (rs :: rss, fs)).
    rewrite Hs. simpl. rewrite Hrest. done.
Qed.

Lemma session_total (cs : list call) (fs : FS) :
  loadable fs →
  ∃ rs self fs', session cs fs = Ok (rs, self, fs') ∧ loadable fs'.
Proof.
  intros Hok.
  destruct (init_loadable fs Hok) as (self0 & fs0 & Hinit & Hok0).
  pose proof (init_spec _ _ _ Hinit) as (Hl & _ & _).
  destruct (run_calls_spec cs self0 fs0 Hl) as (rs & self & fs' & Hrun & _ & Hafter & _).
  exists rs, self, fs'. unfold session. rewrite Hinit. simpl.
  split; [done |]. by apply (after_loadable _ _ _ _ _ Hafter).
Qed.

Lemma run_sessions_total (ss : list (list call)) (fs : FS) :
  loadable fs →
  ∃ rss fs', run_sessions ss fs = Ok (rss, fs') ∧ loadable fs'.
Proof.
  revert fs. induction ss as [|cs ss IH]; intros fs Hok.
  - by exists [], fs.
  - destruct (session_total cs fs Hok) as (rs & self & fs1 & Hs & Hok1).
    destruct (IH fs1 Hok1) as (rss & fs' & Hrest & Hok').
    exists (rs :: rss), fs'.
    change (run_sessions (cs :: ss) fs)
      with (session cs fs ≫= λ '(rs, _, fs),
              run_sessions ss fs ≫= λ '(rss, fs), mret (rs :: rss, fs)).
    rewrite Hs. simpl. rewrite Hrest. done.
Qed.

(** The ids of the tokens over successive sessions: when the sessions
    before the last write what they add, every pair of a token and the id
    returned for it is in one dictionary. [m] holds the pairs of the
    sessions before. *)
Lemma sessions_ids (ss : list (list call)) (last : list call) (fs : FS)
    (m : gmap string Z) (rss : list (list reply)) (fs' : FS) :
  Forall (Forall persistent) ss →
  (∀ self fs0, __init__ fs = Ok (self, fs0) → m ⊆ token_to_id self) →
  run_sessions (ss ++ [last]) fs = Ok (rss, fs') →
  ∃ m' : gmap string Z,
    m ⊆ m' ∧ ∀ token id, (token, id) ∈ emitted_all (ss ++ [last]) rss →
                         m' !! token = Some id.
Proof.
  revert fs m rss. induction ss as [|cs ss IH]; intros fs m rss Hpers Hm Hrun.
  - simpl in Hrun.
    apply bind_Ok in Hrun as ([[rs self] fs1] & Hs & [= <- <-]).
    unfold session in Hs. apply bind_Ok in Hs as ([self0 fs0] & Hinit & Hcalls).
    specialize (Hm _ _ Hinit).
    apply init_spec in Hinit as (Hl & _ & _).
    destruct (run_calls_spec last self0 fs0 Hl)
      as (? & ? & ? & Hrun' & _ & Hafter & _).
    rewrite Hcalls in Hrun'. injection Hrun' as <- <- <-.
    exists (token_to_id self). split.
    + etrans; [done |]. apply (after_ids _ _ _ _ _ Hafter).
    + intros token id. unfold emitted_all. simpl. rewrite app_nil_r.
      apply (after_pairs _ _ _ _ _ Hafter).
  - change (run_sessions ((cs :: ss) ++ [last]) fs)
      with (session cs fs ≫= λ '(rs, _, fs),
              run_sessions (ss ++ [last]) fs ≫= λ '(rss, fs), mret (rs :: rss, fs))
      in Hrun.
    apply bind_Ok in Hrun as ([[rs self] fs1] & Hs & Hrun).
    apply bind_Ok in Hrun as ([rss' fs2] & Hrest & [= <- <-]).
    apply Forall_cons in Hpers as [Hcs Hss].
    unfold session in Hs. apply bind_Ok in Hs as ([self0 fs0] & Hinit & Hcalls).
    specialize (Hm _ _ Hinit).
    apply init_spec in Hinit as (Hl & Hsync0 & _).
    destruct (run_calls_spec cs self0 fs0 Hl)
      as (? & ? & ? & Hrun' & _ & Hafter & Hsync).
    rewrite Hcalls in Hrun'. injection Hrun' as <- <- <-.
    specialize (Hsync Hcs Hsync0).
    pose proof (after_linked _ _ _ _ _ Hafter) as Hl1.
    destruct (IH fs1 (token_to_id self) rss' Hss) as (m' & Hsub & Hm'); [| done |].
    { intros self' fs0'. rewrite (init_synced self fs1 Hl1 Hsync).
      by intros [= <- <-]. }
    exists m'. split.
    + etrans; [done |]. etrans; [| done]. apply (after_ids _ _ _ _ _ Hafter).
    + intros token id. unfold emitted_all. simpl.
      intros [Hin | Hin]%elem_of_app; [| by apply Hm'].
      eapply lookup_weaken; [| done].
      by apply (after_pairs _ _ _ _ _ Hafter).
Qed.

(** ** Counting the punctuation marks *)

Lemma occurrences_app (c : ascii) (s t : string) :
  occurrences c (s +:+ t) = (occurrences c s + occurrences c t)%nat.
Proof. induction s as [|d s IH]; simpl; [done | rewrite IH; lia]. Qed.

Lemma occurrences_remove_spaces (c : ascii) (s : string) :
  isspace c = false → occurrences c (remove_spaces s) = occurrences c s.
Proof.
  intros Hc. induction s as [|d s IH]; simpl; [done |].
  destruct (isspace d) eqn:Hd; simpl; rewrite IH; [| done].
  destruct (Ascii.eqb d c) eqn:Hdc; [| done].
  apply Ascii.eqb_eq in Hdc as ->. congruence.
Qed.

Lemma occurrences_all_plain (c : ascii) (s : string) :
  in_class c = true → all_plain s → occurrences c s = 0%nat.
Proof.
  intros Hc. induction s as [|d s IH]; simpl; [done |].
  intros [[Hd _] Hs]. rewrite IH by done.
  destruct (Ascii.eqb d c) eqn:Hdc; [| done].
  apply Ascii.eqb_eq in Hdc as ->. congruence.
Qed.

(** In a list of segments, a punctuation mark occurs as often as the token
    made of it alone. *)
Lemma occurrences_tokens (c : ascii) (l : list string) :
  in_class c = true →
  Forall (λ p, is_delimiter p ∨ all_plain p) l →
  length (filter (λ p, p = String c "") l) = occurrences c (String.concat "" l).
Proof.
  intros Hc. induction 1 as [|p l Hp _ IH]; [done |].
  rewrite concat_cons, occurrences_app, <- IH.
  destruct (decide (p = String c "")) as [-> | Hne].
  - rewrite filter_cons_True by done. simpl. by rewrite Ascii.eqb_refl.
  - rewrite filter_cons_False by done.
    destruct Hp as [[-> | (d & -> & Hd)] | Hp].
    + change (occurrences c "--")
        with ((if Ascii.eqb "-" c then 1 else 0)
              + ((if Ascii.eqb "-" c then 1 else 0) + 0))%nat.
      destruct (Ascii.eqb_spec "-" c) as [<- | _]; [by vm_compute in Hc | lia].
    + change (occurrences c (String d ""))
        with ((if Ascii.eqb d c then 1 else 0) + 0)%nat.
      destruct (Ascii.eqb_spec d c) as [-> | _]; [done | lia].
    + by rewrite occurrences_all_plain.
Qed.

Lemma segment_occurrences (c : ascii) (text : string) :
  in_class c = true →
  length (filter (λ p, p = String c "") (segment text)) = occurrences c text.
Proof.
  intros Hc. rewrite occurrences_tokens; [| done |].
  - rewrite segment_concat. apply occurrences_remove_spaces.
    by apply in_class_not_space.
  - apply Forall_forall. intros p Hp.
    destruct (segment_kind text p Hp) as [? | [? _]]; auto.
Qed.

(** ** Decoding *)

Lemma linked_id_to_token (self : BasicTokenizer) (id : Z) :
  linked self → id_to_token self !! id = token_at (vocab self) id.
Proof.
  intros [_ ->]. rewrite id_index_lookup. unfold token_at, len.
  destruct (decide (0 ≤ id)) as [Hpos | Hneg].
  - case_decide as Hrange; [done |]. apply lookup_ge_None_2. lia.
  - rewrite decide_False by lia. done.
Qed.

Lemma token_at_None (l : list string) (id : Z) :
  token_at l id = None ↔ ¬ (0 ≤ id < len l).
Proof.
  unfold token_at, len. case_decide as Hrange; [| tauto].
  split; [| tauto]. intros Hn%lookup_ge_None. lia.
Qed.

Lemma linked_token_id (self : BasicTokenizer) (token : string) (id : Z) :
  linked self → token_to_id self !! token = Some id →
  0 ≤ id < len (vocab self) ∧ id_to_token self !! id = Some token.
Proof.
  intros Hl Hid. pose proof Hl as [Ht _]. rewrite Ht in Hid.
  apply token_index_lookup_Some in Hid as [Hrange Hat]. split; [done |].
  rewrite linked_id_to_token by done. unfold token_at.
  by rewrite decide_True by done.
Qed.

Lemma decode_cons (self : BasicTokenizer) (id : Z) (ids : list Z) :
  decode self (id :: ids)
  = default "[UNK]" (id_to_token self !! id) +:+ decode self ids.
Proof. unfold decode. by rewrite fmap_cons, concat_cons. Qed.

(** ** The table *)

Lemma TOKENIZERS_None (name : string) :
  TOKENIZERS !! name = None ↔ name ∉ recognised.
Proof.
  unfold TOKENIZERS, dict_of, recognised. simpl.
  repeat (rewrite lookup_insert; case_decide;
          [subst name; split;
             [done | intros Hn; exfalso; apply Hn, list_elem_of_In; simpl; auto 10] |]).
  rewrite lookup_empty. split; [intros _ | done].
  rewrite list_elem_of_In. simpl. intuition congruence.
Qed.

Lemma TOKENIZERS_Some (name : string) :
  is_Some (TOKENIZERS !! name) ↔ name ∈ recognised.
Proof.
  rewrite <- not_eq_None_Some, TOKENIZERS_None.
  split; [| tauto]. intros Hn. by destruct (decide (name ∈ recognised)).
Qed.

(** ** How the segmenter cuts a text *)

Lemma re_split_from_plain (s piece : string) :
  all_plain s → dash_free s → re_split_from piece s = [piece +:+ s].
Proof.
  revert piece. induction s as [|c s IH]; intros piece Hplain Hfree.
  - simpl. by rewrite append_nil_r.
  - destruct Hplain as [[Hclass Hspace] Hplain]. destruct Hfree as [Hdd Hfree].
    destruct (re_split_from_step piece c s)
      as [[Hc _] | [(-> & rest' & -> & _) | [(_ & Hc & _) | (_ & _ & ->)]]].
    + congruence.
    + exfalso. apply Hdd. split; [done | by eexists].
    + congruence.
    + rewrite IH by done. by rewrite append_snoc.
Qed.

Lemma re_split_from_class (piece : string) (c : ascii) (rest : string) :
  in_class c = true →
  re_split_from piece (String c rest) = piece :: String c "" :: re_split_from "" rest.
Proof. intros Hc. simpl. by rewrite Hc. Qed.

Lemma re_split_from_space (piece : string) (c : ascii) (rest : string) :
  isspace c = true →
  re_split_from piece (String c rest) = piece :: String c "" :: re_split_from "" rest.
Proof.
  intros Hc.
  destruct (re_split_from_step piece c rest)
    as [[_ ->] | [(-> & _) | [(_ & _ & ->) | ([_ Hplain] & _)]]];
    [done | by vm_compute in Hc | done | congruence].
Qed.

Lemma re_split_from_dashes (piece rest : string) :
  re_split_from piece (String "-" (String "-" rest))
  = piece :: "--" :: re_split_from "" rest.
Proof. done. Qed.

Lemma re_split_from_char (piece : string) (c : ascii) (rest : string) :
  plain c → ¬ (c = "-"%char ∧ starts_dash rest) →
  re_split_from piece (String c rest) = re_split_from (piece +:+ String c "") rest.
Proof.
  intros [Hclass Hspace] Hdd.
  destruct (re_split_from_step piece c rest)
    as [[Hc _] | [(-> & rest' & -> & _) | [(_ & Hc & _) | (_ & _ & ->)]]];
    [congruence | | congruence | done].
  exfalso. apply Hdd. split; [done | by eexists].
Qed.

Lemma ends_dash_app (x y : string) : ends_dash y → ends_dash (x +:+ y).
Proof.
  intros Hy. induction x as [|c x IH]; [done |].
  simpl. destruct (x +:+ y) as [|d t] eqn:Hxy; [| done].
  destruct x; [| done]. simpl in Hxy. subst y. done.
Qed.

Lemma starts_dash_app (x y : string) :
  x ≠ "" → starts_dash (x +:+ y) ↔ starts_dash x.
Proof.
  destruct x as [|c x]; [done |]. intros _. simpl. split.
  - intros [? [= -> _]]. by eexists.
  - intros [? [= -> _]]. by eexists.
Qed.

(** The split of a text that goes on: the pieces of the first part, the
    last of which is still open, then the split of the rest from that
    piece; unless the first part ends with a dash that pairs with a dash
    at the start of the rest. *)
Lemma re_split_from_app (a piece rest : string) :
  ∃ init last,
    re_split_from piece a = init ++ [last]
    ∧ (ends_dash last → ends_dash (piece +:+ a))
    ∧ (¬ (ends_dash last ∧ starts_dash rest) →
       re_split_from piece (a +:+ rest) = init ++ re_split_from last rest).
Proof.
  revert piece. induction a as [|c a IH IH'] using scan_ind; intros piece.
  - exists [], piece. split; [done |]. split; [by rewrite append_nil_r | done].
  - destruct (re_split_from_step piece c a)
      as [[Hc Ha] | [(-> & a' & -> & Ha) | [(Hclass & Hc & Ha) | (Hc & Hdd & Ha)]]].
    + destruct (IH "") as (init & last & Hi & Hend & Happ).
      exists (piece :: String c "" :: init), last. rewrite Ha, Hi.
      split; [done |]. split.
      * intros Hl%Hend. change (piece +:+ String c a) with (piece +:+ String c "" +:+ a).
        rewrite <- append_assoc. by apply ends_dash_app.
      * intros Hno. change (String c a +:+ rest) with (String c (a +:+ rest)).
        rewrite re_split_from_class by done. by rewrite Happ.
    + destruct (IH' a' eq_refl "") as (init & last & Hi & Hend & Happ).
      exists (piece :: "--" :: init), last. rewrite Ha, Hi.
      split; [done |]. split.
      * intros Hl%Hend.
        change (piece +:+ String "-" (String "-" a')) with (piece +:+ "--" +:+ a').
        rewrite <- append_assoc. by apply ends_dash_app.
      * intros Hno.
        change (String "-" (String "-" a') +:+ rest)
          with (String "-" (String "-" (a' +:+ rest))).
        rewrite re_split_from_dashes. by rewrite Happ.
    + destruct (IH "") as (init & last & Hi & Hend & Happ).
      exists (piece :: String c "" :: init), last. rewrite Ha, Hi.
      split; [done |]. split.
      * intros Hl%Hend. change (piece +:+ String c a) with (piece +:+ String c "" +:+ a).
        rewrite <- append_assoc. by apply ends_dash_app.
      * intros Hno. change (String c a +:+ rest) with (String c (a +:+ rest)).
        rewrite re_split_from_space by done. by rewrite Happ.
    + destruct (IH (piece +:+ String c "")) as (init & last & Hi & Hend & Happ).
      exists init, last. rewrite Ha, Hi.
      split; [done |]. split.
      * intros Hl%Hend. by rewrite append_snoc in Hl.
      * intros Hno. change (String c a +:+ rest) with (String c (a +:+ rest)).
        rewrite re_split_from_char; [by apply Happ | done |].
        intros [-> Hst]. destruct a as [|d a].
        -- simpl in Hi. destruct init as [|x init]; [| by destruct init].
           injection Hi as <-. apply Hno. split; [| done].
           by apply ends_dash_snoc.
        -- apply Hdd. split; [done |]. by apply (starts_dash_app (String d a) rest).
Qed.

Lemma kept_app (l k : list string) :
  strip <$> filter (λ item, strip item ≠ "") (l ++ k)
  = (strip <$> filter (λ item, strip item ≠ "") l)
    ++ (strip <$> filter (λ item, strip item ≠ "") k).
Proof. by rewrite filter_app, fmap_app. Qed.

Lemma kept_cons (x : string) (l : list string) :
  strip <$> filter (λ item, strip item ≠ "") (x :: l)
  = (if decide (strip x = "") then [] else [strip x])
    ++ (strip <$> filter (λ item, strip item ≠ "") l).
Proof.
  destruct (decide (strip x = "")) as [He | Hne].
  - by rewrite filter_cons_False by (intros Hn; by apply Hn).
  - by rewrite filter_cons_True by done.
Qed.

(** A punctuation mark cuts the text and is kept as a token. *)
Lemma segment_class (a : string) (c : ascii) (b : string) :
  in_class c = true →
  segment (a +:+ String c b) = segment a ++ [String c ""] ++ segment b.
Proof.
  intros Hc. destruct (re_split_from_app a "" (String c b))
    as (init & last & Ha & _ & Happ).
  unfold segment, re_split. rewrite Happ, Ha, re_split_from_class by
    (done || (intros [_ [? [= -> _]]]; by vm_compute in Hc)).
  rewrite !kept_app, !kept_cons.
  rewrite (strip_no_space (String c "")) by (simpl; by rewrite in_class_not_space).
  rewrite (decide_False (P := String c "" = "")) by done.
  rewrite filter_nil, fmap_nil, app_nil_r. by rewrite <- !app_assoc.
Qed.

(** White space cuts the text and is dropped. *)
Lemma segment_space (a : string) (w : ascii) (b : string) :
  isspace w = true → segment (a +:+ String w b) = segment a ++ segment b.
Proof.
  intros Hw. destruct (re_split_from_app a "" (String w b))
    as (init & last & Ha & _ & Happ).
  unfold segment, re_split. rewrite Happ, Ha, re_split_from_space by
    (done || (intros [_ [? [= -> _]]]; by vm_compute in Hw)).
  rewrite !kept_app, !kept_cons.
  rewrite (strip_space w) by done.
  rewrite (decide_True (P := "" = "")) by done.
  rewrite filter_nil, fmap_nil, app_nil_r. by rewrite <- !app_assoc.
Qed.

(** Two dashes cut the text and are kept as one token, where the text
    before them does not end with a dash. *)
Lemma segment_dashes (a b : string) :
  ¬ ends_dash a → segment (a +:+ "--" +:+ b) = segment a ++ ["--"] ++ segment b.
Proof.
  intros Hend. destruct (re_split_from_app a "" ("--" +:+ b))
    as (init & last & Ha & Hlast & Happ).
  unfold segment, re_split. rewrite Happ by (intros [Hl _]; by apply Hend, Hlast).
  rewrite Ha. change ("--" +:+ b) with (String "-" (String "-" b)).
  rewrite re_split_from_dashes.
  rewrite !kept_app, !kept_cons.
  change (strip "--") with "--".
  rewrite (decide_False (P := "--" = "")) by done.
  rewrite filter_nil, fmap_nil, app_nil_r. by rewrite <- !app_assoc.
Qed.

(** A text that holds no punctuation mark, no white space and no two
    dashes in a row is one segment, or none when it is empty. *)
Lemma segment_word (s : string) :
  all_plain s → dash_free s → segment s = if decide (s = "") then [] else [s].
Proof.
  intros Hplain Hfree. unfold segment, re_split.
  rewrite re_split_from_plain by done. simpl.
  rewrite kept_cons, (strip_no_space s) by (by apply all_plain_no_space).
  destruct (decide (s = "")); by rewrite app_nil_r.
Qed.

(** Every text is a word, or is cut at a punctuation mark or a white-space
    character, or at two dashes that no dash precedes. *)
Lemma text_cut (s : string) :
  (all_plain s ∧ dash_free s)
  ∨ (∃ a c b, s = a +:+ String c b ∧ (in_class c = true ∨ isspace c = true))
  ∨ (∃ a b, s = a +:+ "--" +:+ b ∧ ¬ ends_dash a).
Proof.
  induction s as [|c s IH]; [by left |].
  destruct (in_class c) eqn:Hclass.
  { right; left. exists "", c, s. auto. }
  destruct (isspace c) eqn:Hspace.
  { right; left. exists "", c, s. auto. }
  assert ((c = "-"%char ∧ starts_dash s) ∨ ¬ (c = "-"%char ∧ starts_dash s))
    as [[-> [rest ->]] | Hdd].
  { destruct (decide (c = "-"%char)) as [-> | Hne]; [| right; by intros [? _]].
    destruct s as [|d s]; [right; by intros [_ [? ?]] |].
    destruct (decide (d = "-"%char)) as [-> | Hne]; [left; split; [done | by eexists] |].
    right. by intros [_ [? [= -> _]]]. }
  { right; right. exists "", rest. split; [done | by intros []]. }
  destruct IH as [[Hplain Hfree] | [(a & d & b & -> & Hd) | (a & b & -> & Hend)]].
  - by left.
  - right; left. by exists (String c a), d, b.
  - right; right. exists (String c a), b. split; [done |].
    destruct a as [|e a]; [| done].
    simpl. intros ->. apply Hdd. split; [done | by eexists].
Qed.

(** The four rules decide the segments of every text. *)
Lemma segment_rules_unique (f : string → list string) :
  (∀ s, all_plain s → dash_free s → f s = if decide (s = "") then [] else [s]) →
  (∀ a c b, in_class c = true → f (a +:+ String c b) = f a ++ [String c ""] ++ f b) →
  (∀ a w b, isspace w = true → f (a +:+ String w b) = f a ++ f b) →
  (∀ a b, ¬ ends_dash a → f (a +:+ "--" +:+ b) = f a ++ ["--"] ++ f b) →
  ∀ text, f text = segment text.
Proof.
  intros Hword Hclass Hspace Hdashes text.
  remember (String.length text) as n eqn:Hn. revert text Hn.
  induction n as [n IH] using lt_wf_ind. intros text ->.
  destruct (text_cut text)
    as [[Hplain Hfree] | [(a & c & b & -> & Hc) | (a & b & -> & Hend)]].
  - by rewrite Hword, segment_word.
  - assert (f a = segment a) as Ha.
    { eapply IH; [| done]. rewrite length_append. simpl. lia. }
    assert (f b = segment b) as Hb.
    { eapply IH; [| done]. rewrite length_append. simpl. lia. }
    destruct (in_class c) eqn:Hin.
    + by rewrite Hclass, segment_class, Ha, Hb.
    + destruct Hc as [Hc | Hc]; [done |].
      by rewrite Hspace, segment_space, Ha, Hb.
  - assert (f a = segment a) as Ha.
    { eapply IH; [| done]. rewrite !length_append. simpl. lia. }
    assert (f b = segment b) as Hb.
    { eapply IH; [| done]. rewrite !length_append. simpl. lia. }
    by rewrite Hdashes, segment_dashes, Ha, Hb.
Qed.

(** * The claims *)

(** C7. The segmenter on the example and in general: the example text
    gives the four tokens; for every text the segments, put end to end, are
    the text without its white space, so that the order is kept and
    nothing but white space is dropped; every occurrence of a punctuation
    mark of the pattern is a token of its own; every segment is non-empty,
    is left as it is by [strip], holds no white space, and is either a
    delimiter (one punctuation mark, or the two dashes) or a piece that
    holds no punctuation mark, no white space and no two dashes in a row.
    Where the text is cut is fixed by four rules: a text without
    punctuation mark, white space and two dashes in a row is one segment
    (none when it is empty); a punctuation mark cuts the text and stands
    between the segments of both sides as one token; a white-space
    character cuts the text and is dropped; two dashes that no dash
    precedes cut the text and stand between the segments of both sides as
    the one token of two dashes.  The rules leave no choice: a function
    that obeys them is [segment]. *)
Theorem segmenter_shape :
  (segment "Hello, world!" = ["Hello"; ","; "world"; "!"]
   ∧ ∀ text,
       String.concat "" (segment text) = remove_spaces text
       ∧ (∀ c, in_class c = true →
            length (filter (λ p, p = String c "") (segment text))
            = occurrences c text)
       ∧ ∀ piece, piece ∈ segment text →
           piece ≠ "" ∧ strip piece = piece ∧ no_space piece
           ∧ (is_delimiter piece
              ∨ ((∀ c, substring_of (String c "") piece →
                       in_class c = false ∧ isspace c = false)
                 ∧ ¬ substring_of "--" piece)))
  ∧ segment "hi there" = ["hi"; "there"]
  ∧ segment "yes--no" = ["yes"; "--"; "no"]
  ∧ segment "a---b - c" = ["a"; "--"; "-b"; "-"; "c"]
  ∧ (∀ s, all_plain s → dash_free s →
       segment s = if decide (s = "") then [] else [s])
  ∧ (∀ a c b, in_class c = true →
       segment (a +:+ String c b) = segment a ++ [String c ""] ++ segment b)
  ∧ (∀ a w b, isspace w = true →
       segment (a +:+ String w b) = segment a ++ segment b)
  ∧ (∀ a b, ¬ ends_dash a →
       segment (a +:+ "--" +:+ b) = segment a ++ ["--"] ++ segment b)
  ∧ ∀ f : string → list string,
      (∀ s, all_plain s → dash_free s → f s = if decide (s = "") then [] else [s]) →
      (∀ a c b, in_class c = true → f (a +:+ String c b) = f a ++ [String c ""] ++ f b) →
      (∀ a w b, isspace w = true → f (a +:+ String w b) = f a ++ f b) →
      (∀ a b, ¬ ends_dash a → f (a +:+ "--" +:+ b) = f a ++ ["--"] ++ f b) →
      ∀ text, f text = segment text.
Proof.
  split.
  { split; [by vm_compute |]. intros text.
    split; [apply segment_concat |].
    split; [intros c Hc; by apply segment_occurrences |].
    intros piece Hpiece.
    destruct (segment_elem text piece Hpiece) as (_ & Hne & Hstrip & Hspace).
    split; [done |]. split; [done |]. split; [done |].
    destruct (segment_kind text piece Hpiece) as [Hd | [Hplain Hfree]]; [by left |].
    right. split.
    - intros c Hc. by apply (all_plain_elem piece c).
    - by apply dash_free_substring. }
  split; [by vm_compute |]. split; [by vm_compute |]. split; [by vm_compute |].
  split; [apply segment_word |]. split; [apply segment_class |].
  split; [apply segment_space |]. split; [apply segment_dashes |].
  apply segment_rules_unique.
Qed.

(** C5, the claim as it is written fails: the text that is the begin
    marker is one segment, the begin marker. *)
Lemma marker_collision :
  segment "<|BOS|>" = ["<|BOS|>"]
  ∧ segment "say <|EOS|> now" = ["say"; "<|EOS|>"; "now"]
  ∧ ¬ (∀ text piece, piece ∈ segment text → piece ∉ special_tokens.*1).
Proof.
  split; [by vm_compute |]. split; [by vm_compute |].
  intros Hclaim. apply (Hclaim "<|BOS|>" "<|BOS|>").
  - vm_compute. apply list_elem_of_here.
  - simpl. apply list_elem_of_here.
Qed.

(** C5, amended. The markers are the two surface forms of lines 60-63.
    A segment of a text equals a marker only when that marker occurs in
    the text; hence for a text in which neither marker occurs, no
    segment is a marker. *)
Theorem marker_only_from_text (text : string) :
  special_tokens.*1 = ["<|BOS|>"; "<|EOS|>"]
  ∧ (∀ marker, marker ∈ special_tokens.*1 → marker ∈ segment text →
       substring_of marker text)
  ∧ ((∀ marker, marker ∈ special_tokens.*1 → ¬ substring_of marker text) →
     ∀ piece, piece ∈ segment text → piece ∉ special_tokens.*1).
Proof.
  split; [done |]. split.
  - intros marker _ Hpiece. by apply (segment_substring text).
  - intros Hfree piece Hpiece Hmarker.
    apply (Hfree piece Hmarker). by apply (segment_substring text).
Qed.

Lemma marker_only_from_text_witness :
  ("<|EOS|>" ∈ special_tokens.*1
   ∧ "<|EOS|>" ∈ segment "say <|EOS|> now"
   ∧ substring_of "<|EOS|>" "say <|EOS|> now")
  ∧ (∀ marker, marker ∈ special_tokens.*1 → ¬ substring_of marker "hi")
  ∧ "hi" ∈ segment "hi"
  ∧ "hi" ∉ special_tokens.*1.
Proof.
  assert (Hmarker : "<|EOS|>" ∈ special_tokens.*1).
  { simpl. apply list_elem_of_further, list_elem_of_here. }
  assert (Hseg : "<|EOS|>" ∈ segment "say <|EOS|> now").
  { vm_compute. apply list_elem_of_further, list_elem_of_here. }
  assert (Hfree : ∀ marker, marker ∈ special_tokens.*1 → ¬ substring_of marker "hi").
  { intros marker Hm (before & after & Heq).
    apply (f_equal String.length) in Heq. rewrite !length_append in Heq.
    simpl in Hm.
    apply elem_of_cons in Hm as [-> | Hm];
      [| apply elem_of_cons in Hm as [-> | Hm]].
    - simpl in Heq. lia.
    - simpl in Heq. lia.
    - by apply elem_of_nil in Hm. }
  assert (Hin : "hi" ∈ segment "hi") by (vm_compute; apply list_elem_of_here).
  split.
  - split; [exact Hmarker |]. split; [exact Hseg |].
    exact (proj1 (proj2 (marker_only_from_text "say <|EOS|> now"))
             "<|EOS|>" Hmarker Hseg).
  - split; [exact Hfree |]. split; [exact Hin |].
    exact (proj2 (proj2 (marker_only_from_text "hi")) Hfree "hi" Hin).
Defined.

(** C2. Saving and loading: the file that [save_vocab] writes holds the
    list of the object in the order of the ids, [json.load] reads that
    list back, and the constructor run on that file makes an object with
    the same list, in which the id of a token is its position in the file;
    when the dictionaries of the saved object are those of its list, the
    object made is the saved object. *)
Theorem vocabulary_round_trip (self : BasicTokenizer) (fs : FS) :
  save_vocab self fs !! vocab_file = Some (json_dump (vocab self))
  ∧ json_load (json_dump (vocab self)) = Ok (vocab self)
  ∧ ∃ self',
      __init__ (save_vocab self fs) = Ok (self', save_vocab self fs)
      ∧ vocab self' = vocab self
      ∧ (∀ id, id_to_token self' !! id = token_at (vocab self) id)
      ∧ (linked self → self' = self).
Proof.
  assert (Hfile : save_vocab self fs !! vocab_file = Some (json_dump (vocab self)))
    by apply lookup_insert_eq.
  split; [done |]. split; [apply json_load_dump_id |].
  eexists. split; [| split; [| split]].
  - apply (init_loaded _ _ _ Hfile (json_load_dump_id _)).
  - done.
  - intros id. rewrite linked_id_to_token; [done | by split].
  - intros Hl. apply linked_eq; [by split | done | done].
Qed.

(** C4. On a store without a vocabulary file the constructor gives the
    begin marker the id 0 and the end marker the id 1; the text [hi] is
    one segment; the first call of the encode entry of strategy B on [hi]
    returns the ids 0, 2, 1 and leaves the three tokens in the file. *)
Theorem fresh_encode_hi
    (external_encode : strategy → string → FS → result (list Z * FS)) (fs : FS) :
  fs !! vocab_file = None →
  (∃ fs0, __init__ fs = Ok (fresh_tokenizer, fs0))
  ∧ vocab fresh_tokenizer = ["<|BOS|>"; "<|EOS|>"]
  ∧ token_to_id fresh_tokenizer !! "<|BOS|>" = Some 0
  ∧ token_to_id fresh_tokenizer !! "<|EOS|>" = Some 1
  ∧ segment "hi" = ["hi"]
  ∧ ∃ fs',
      encode_text external_encode "hi" "B" fs = Ok ([0; 2; 1], fs')
      ∧ fs' !! vocab_file = Some (json_dump ["<|BOS|>"; "<|EOS|>"; "hi"]).
Proof.
  intros Hnone.
  split; [eexists; by apply init_fresh |].
  split; [done |]. split; [by vm_compute |]. split; [by vm_compute |].
  split; [by vm_compute |].
  assert (Hloop : for_each encode_token (framed "hi") (fresh_tokenizer, [], [])
                  = Ok (append_token fresh_tokenizer "hi", [0; 2; 1], ["hi"]))
    by (vm_compute; reflexivity).
  eexists. split.
  - change (encode_text external_encode "hi" "B" fs) with (B_encode "hi" fs).
    unfold B_encode. rewrite (init_fresh fs Hnone). simpl.
    unfold encode. rewrite Hloop. simpl. reflexivity.
  - unfold save_vocab. by rewrite lookup_insert_eq.
Qed.

Lemma fresh_encode_hi_witness :
  (∅ : FS) !! vocab_file = None
  ∧ ∃ fs', encode_text (λ _ _ _, Raise (ValueError "")) "hi" "B" ∅ = Ok ([0; 2; 1], fs').
Proof.
  split; [apply lookup_empty |].
  destruct (fresh_encode_hi (λ _ _ _, Raise (ValueError "")) ∅ (lookup_empty _))
    as (_ & _ & _ & _ & _ & fs' & Henc & _).
  by exists fs'.
Defined.

(** C8. Decoding an id that is no position of the list: on every object
    that a program can hold, [decode] returns the entries of the ids that
    are positions and the marker for the others; an id outside 0..len-1
    alone gives the marker, and so does 999 when the list has fewer than
    1000 entries; through the decode entry of strategy B, the call returns
    whenever the constructor does. *)
Theorem decode_unknown_id (self : BasicTokenizer) :
  reachable self →
  (∀ token_ids,
     decode self token_ids
     = String.concat ""
         ((λ id, default "[UNK]" (token_at (vocab self) id)) <$> token_ids))
  ∧ (∀ id, ¬ (0 ≤ id < len (vocab self)) → decode self [id] = "[UNK]")
  ∧ (len (vocab self) < 1000 → decode self [999] = "[UNK]")
  ∧ (∀ fs fs' external_decode token_ids,
       __init__ fs = Ok (self, fs') →
       decode_text external_decode token_ids "B" fs = Ok (decode self token_ids, fs')).
Proof.
  intros Hl%reachable_linked.
  assert (Hone : ∀ id, ¬ (0 ≤ id < len (vocab self)) → decode self [id] = "[UNK]").
  { intros id Hid. unfold decode. simpl.
    rewrite linked_id_to_token by done.
    apply token_at_None in Hid. by rewrite Hid. }
  split; [| split; [done | split]].
  - intros token_ids. unfold decode. f_equal.
    apply list_fmap_ext. intros _ id _. by rewrite linked_id_to_token.
  - intros Hlen. apply Hone. lia.
  - intros fs fs' external_decode token_ids Hinit.
    change (decode_text external_decode token_ids "B" fs) with (B_decode token_ids fs).
    unfold B_decode. by rewrite Hinit.
Qed.

Lemma fresh_reachable : reachable fresh_tokenizer.
Proof.
  exists ∅, [], fresh_tokenizer, (save_vocab fresh_tokenizer ∅), [],
    (save_vocab fresh_tokenizer ∅).
  split; [apply init_fresh, lookup_empty | done].
Qed.

Lemma decode_unknown_id_witness :
  reachable fresh_tokenizer ∧ decode fresh_tokenizer [0; 999; -1; 1; 2]
  = "<|BOS|>[UNK][UNK]<|EOS|>[UNK]".
Proof.
  split; [apply fresh_reachable |].
  destruct (decode_unknown_id fresh_tokenizer fresh_reachable) as (-> & _).
  by vm_compute.
Defined.

(** C10. The ids that [encode] returns are positions of the list as the
    call leaves it: on every object that a program can hold, for every
    text and either value of the flag, the call returns one id for each
    token of the framed text; each id is in 0..len-1 of the new list and
    is a key of the new [id_to_token], whose entry is the token; so
    decoding the ids on the new object never falls back on the marker and
    gives the tokens end to end. *)
Theorem encode_ids_valid (self : BasicTokenizer) (fs : FS) (text : string)
    (vocab_update : bool) :
  reachable self →
  ∃ token_ids self' fs',
    encode self fs text vocab_update = Ok (token_ids, self', fs')
    ∧ length token_ids = length (framed text)
    ∧ Forall (λ id, 0 ≤ id < len (vocab self')) token_ids
    ∧ Forall2 (λ token id, id_to_token self' !! id = Some token
                           ∧ token_at (vocab self') id = Some token)
        (framed text) token_ids
    ∧ decode self' token_ids = String.concat "" (framed text).
Proof.
  intros Hl%reachable_linked.
  destruct (encode_spec self fs text vocab_update Hl)
    as (self' & ids & news & Henc & [Hl' _ _ _] & Hids & _).
  eexists ids, self', _. split; [done |].
  split; [symmetry; by eapply Forall2_length |].
  assert (Hboth : Forall2 (λ token id, 0 ≤ id < len (vocab self')
                                       ∧ id_to_token self' !! id = Some token)
                    (framed text) ids).
  { eapply Forall2_impl; [done |]. intros token id Hid.
    by apply linked_token_id. }
  split; [| split].
  - eapply Forall2_Forall_r; [done |]. apply Forall_forall.
    intros token _ id [Hrange _]. done.
  - eapply Forall2_impl; [done |]. intros token id [_ Hid].
    split; [done |]. by rewrite <- linked_id_to_token.
  - clear Henc Hids. induction Hboth as [|token id tokens ids' [_ Hid] _ IH]; [done |].
    by rewrite decode_cons, Hid, IH, concat_cons.
Qed.

Lemma encode_ids_valid_witness :
  reachable fresh_tokenizer
  ∧ ∃ token_ids self' fs',
      encode fresh_tokenizer ∅ "Hello, world!" false = Ok (token_ids, self', fs')
      ∧ Forall (λ id, 0 ≤ id < len (vocab self')) token_ids.
Proof.
  split; [apply fresh_reachable |].
  destruct (encode_ids_valid fresh_tokenizer ∅ "Hello, world!" false fresh_reachable)
    as (token_ids & self' & fs' & Henc & _ & Hrange & _).
  by exists token_ids, self', fs'.
Defined.

(** C9. An unknown name of strategy: for every name outside the nine
    names of the table, [NOPE] among them, the lookup fails and
    [encode_text] and [decode_text] raise the error that names the
    strategy, whatever the text, the ids and the files; for every name of
    the table the lookup gives the entry and the two functions call it;
    [main] catches the error of an unknown name and prints it, so that the
    program ends in the ordinary way. *)
Theorem unknown_strategy
    (external_encode : strategy → string → FS → result (list Z * FS))
    (external_decode : strategy → list Z → FS → result (string * FS)) :
  ("NOPE" ∉ recognised)
  ∧ (∀ name, name ∉ recognised →
       resolve name = Raise (unknown_tokenizer name)
       ∧ ∀ text token_ids fs,
           encode_text external_encode text name fs = Raise (unknown_tokenizer name)
           ∧ decode_text external_decode token_ids name fs
             = Raise (unknown_tokenizer name)
           ∧ (text ≠ "" →
              main external_encode external_decode
                (mkArgs name true false (Some text) None) fs
              = Ok [Line_error (unknown_tokenizer name)])
           ∧ (token_ids ≠ [] →
              main external_encode external_decode
                (mkArgs name false true None (Some token_ids)) fs
              = Ok [Line_error (unknown_tokenizer name)]))
  ∧ (∀ name, name ∈ recognised →
       ∃ entry, resolve name = Ok entry
         ∧ ∀ text token_ids fs,
             encode_text external_encode text name fs
             = encode_func external_encode entry text fs
             ∧ decode_text external_decode token_ids name fs
               = decode_func external_decode entry token_ids fs).
Proof.
  split; [by apply TOKENIZERS_None |]. split.
  - intros name Hname%TOKENIZERS_None. unfold resolve. rewrite Hname.
    split; [done |]. intros text token_ids fs.
    assert (Henc : encode_text external_encode text name fs
                   = Raise (unknown_tokenizer name))
      by (unfold encode_text; by rewrite Hname).
    assert (Hdec : decode_text external_decode token_ids name fs
                   = Raise (unknown_tokenizer name))
      by (unfold decode_text; by rewrite Hname).
    split; [done |]. split; [done |]. split.
    + intros Htext. unfold main. simpl. destruct text; [done |]. simpl.
      unfold encode_text. by rewrite Hname.
    + intros Hids. unfold main. simpl. destruct token_ids; [done |]. simpl.
      unfold decode_text. by rewrite Hname.
  - intros name [entry Hentry]%TOKENIZERS_Some. exists entry.
    unfold resolve, encode_text, decode_text. rewrite Hentry. done.
Qed.

(** C6, the claim as it is written fails: on a store without a vocabulary
    file, the decode entry of strategy B writes the file, since the
    constructor saves the list of the two markers. *)
Lemma decode_writes_fresh_store :
  (∃ fs', B_decode [] ∅ = Ok ("", fs')
          ∧ (∅ : FS) !! vocab_file = None
          ∧ fs' !! vocab_file = Some (json_dump ["<|BOS|>"; "<|EOS|>"]))
  ∧ ¬ (∀ (fs : FS) token_ids text fs',
         B_decode token_ids fs = Ok (text, fs') → fs' = fs).
Proof.
  assert (Hrun : B_decode [] ∅ = Ok ("", save_vocab fresh_tokenizer ∅)).
  { unfold B_decode. by rewrite (init_fresh ∅ (lookup_empty _)). }
  split.
  - eexists. split; [exact Hrun |]. split; [apply lookup_empty |].
    unfold save_vocab. by rewrite lookup_insert_eq.
  - intros Hclaim. specialize (Hclaim _ _ _ _ Hrun).
    apply (f_equal (λ fs : FS, fs !! vocab_file)) in Hclaim.
    unfold save_vocab in Hclaim.
    by rewrite lookup_insert_eq, lookup_empty in Hclaim.
Qed.

(** C6, amended. The method [decode] leaves the object and the files as
    they are. The decode entry of strategy B leaves the files as they are
    when the vocabulary file exists; when it does not, the constructor
    writes the list of the two markers to it, nothing else changes, and
    the ids are decoded on that list. *)
Theorem decode_frame :
  (∀ self (fs : FS) token_ids,
     invoke (Decode token_ids) self fs = Ok (Text (decode self token_ids), self, fs))
  ∧ (∀ (fs : FS) token_ids text fs',
       is_Some (fs !! vocab_file) →
       B_decode token_ids fs = Ok (text, fs') → fs' = fs)
  ∧ (∀ (fs : FS) token_ids,
       fs !! vocab_file = None →
       B_decode token_ids fs
       = Ok (decode fresh_tokenizer token_ids,
             <[vocab_file := json_dump ["<|BOS|>"; "<|EOS|>"]]> fs)).
Proof.
  split; [done |]. split.
  - intros fs token_ids text fs' Hfile Hrun. unfold B_decode in Hrun.
    apply bind_Ok in Hrun as ([self fs0] & Hinit & [= _ <-]).
    apply init_spec in Hinit as (_ & _ & [(Hnone & _) | (_ & ->)]); [| done].
    rewrite Hnone in Hfile. by destruct Hfile.
  - intros fs token_ids Hnone. unfold B_decode.
    by rewrite (init_fresh fs Hnone).
Qed.

Lemma decode_frame_witness :
  is_Some (save_vocab fresh_tokenizer ∅ !! vocab_file)
  ∧ ∃ text fs',
      B_decode [0; 7; 1] (save_vocab fresh_tokenizer ∅) = Ok (text, fs')
      ∧ fs' = save_vocab fresh_tokenizer ∅.
Proof.
  assert (Hfile : is_Some (save_vocab fresh_tokenizer ∅ !! vocab_file)).
  { unfold save_vocab. rewrite lookup_insert_eq. by eexists. }
  assert (Hrun : B_decode [0; 7; 1] (save_vocab fresh_tokenizer ∅)
                 = Ok ("<|BOS|>[UNK]<|EOS|>", save_vocab fresh_tokenizer ∅)).
  { unfold B_decode.
    rewrite (init_synced _ _ fresh_linked (synced_save fresh_tokenizer ∅)).
    by vm_compute. }
  split; [exact Hfile |]. eexists _, _. split; [exact Hrun |].
  destruct decode_frame as (_ & Hsame & _).
  exact (Hsame _ _ _ _ Hfile Hrun).
Defined.

(** C1, the claim as it is written fails: the constructor takes the list
    of the file as it is; on a file that holds a token twice, the token
    has the id of its last position, so the entry at its first position
    does not map back to that position, before and after any call. *)
Lemma duplicate_file_breaks_invariant :
  (∃ self fs',
     session [Encode "a" true; Decode [0]] {[vocab_file := json_dump ["a"; "a"]]}
       = Ok ([Ids [2; 1; 3]; Text "a"], self, fs')
     ∧ vocab self = ["a"; "a"; "<|BOS|>"; "<|EOS|>"]
     ∧ token_to_id self !! "a" = Some 1)
  ∧ ¬ (∀ (fs : FS) cs rs self fs',
         session cs fs = Ok (rs, self, fs') → consistent self).
Proof.
  assert (Hrun : ∃ self fs',
     session [Encode "a" true; Decode [0]] {[vocab_file := json_dump ["a"; "a"]]}
       = Ok ([Ids [2; 1; 3]; Text "a"], self, fs')
     ∧ vocab self = ["a"; "a"; "<|BOS|>"; "<|EOS|>"]
     ∧ token_to_id self !! "a" = Some 1).
  { eexists _, _. split; [by vm_compute |]. split; by vm_compute. }
  split; [exact Hrun |]. intros Hclaim.
  destruct Hrun as (self & fs' & Hs & Hvocab & Hid).
  destruct (Hclaim _ _ _ _ _ Hs) as [Hentry _ _ _].
  specialize (Hentry 0%nat "a"). rewrite Hvocab, Hid in Hentry.
  by specialize (Hentry eq_refl).
Qed.

(** C1, amended. From files on which the vocabulary file is absent or
    holds no token twice, as every file that the tokenizer writes does:
    sessions one after the other never raise, and after every call of
    [encode] and [decode] of every session the entry at each position maps
    to that position, the ids are the positions 0..len-1, no token is in
    the list twice, and the file is again without repetition; a further
    call keeps the list as a prefix of the new one, so that the ids grow
    in the order of the insertions. *)
Theorem vocabulary_invariant (fs : FS) (ss : list (list call)) (cs : list call) :
  store_ok fs →
  ∃ rss fs1 rs self fs2,
    run_sessions ss fs = Ok (rss, fs1)
    ∧ session cs fs1 = Ok (rs, self, fs2)
    ∧ consistent self
    ∧ store_ok fs2
    ∧ ∀ c, ∃ r self' fs3,
        invoke c self fs2 = Ok (r, self', fs3)
        ∧ vocab self `prefix_of` vocab self'
        ∧ consistent self'.
Proof.
  intros Hok.
  destruct (run_sessions_spec ss fs Hok) as (rss & fs1 & Hrun & Hok1).
  destruct (session_spec cs fs1 Hok1) as (rs & self & fs2 & Hs & Hl & Hnd & Hok2).
  exists rss, fs1, rs, self, fs2.
  split; [done |]. split; [done |].
  split; [by apply linked_consistent |]. split; [done |].
  intros c.
  destruct (invoke_spec c self fs2 Hl) as (r & self' & fs3 & Hstep & Hafter & _).
  exists r, self', fs3. split; [done |]. destruct Hafter.
  split; [done |]. apply linked_consistent; auto.
Qed.

Lemma vocabulary_invariant_witness :
  store_ok ∅
  ∧ ∃ rss fs1 rs self fs2,
      run_sessions [[Encode "hi" true]; [Decode [5]]] ∅ = Ok (rss, fs1)
      ∧ session [Encode "Hello, world!" false; Encode "hi, hi" true] fs1
        = Ok (rs, self, fs2)
      ∧ consistent self.
Proof.
  assert (Hok : store_ok ∅) by apply store_ok_fresh, lookup_empty.
  split; [exact Hok |].
  destruct (vocabulary_invariant ∅ [[Encode "hi" true]; [Decode [5]]]
              [Encode "Hello, world!" false; Encode "hi, hi" true] Hok)
    as (rss & fs1 & rs & self & fs2 & Hrun & Hs & Hcons & _).
  by exists rss, fs1, rs, self, fs2.
Defined.

(** C3, the claim as it is written fails: an object encodes [foo] without
    writing the file and is dropped; the next object gives the id of
    [foo] to [bar], and then another id to [foo]. *)
Lemma unsaved_id_reassigned :
  (∃ fs',
     run_sessions [[Encode "foo" false]; [Encode "bar" true; Encode "foo" true]] ∅
       = Ok ([[Ids [0; 2; 1]]; [Ids [0; 2; 1]; Ids [0; 3; 1]]], fs'))
  ∧ ¬ (∀ ss (fs : FS) rss fs',
         run_sessions ss fs = Ok (rss, fs') →
         ∀ token i j,
           (token, i) ∈ emitted_all ss rss → (token, j) ∈ emitted_all ss rss → i = j).
Proof.
  assert (Hrun : ∃ fs',
     run_sessions [[Encode "foo" false]; [Encode "bar" true; Encode "foo" true]] ∅
       = Ok ([[Ids [0; 2; 1]]; [Ids [0; 2; 1]; Ids [0; 3; 1]]], fs')).
  { eexists. by vm_compute. }
  split; [exact Hrun |]. intros Hclaim. destruct Hrun as [fs' Hrun].
  specialize (Hclaim _ _ _ _ Hrun "foo" 2 3).
  assert (Hneq : 2 ≠ 3) by done. apply Hneq, Hclaim.
  - vm_compute. apply list_elem_of_further, list_elem_of_here.
  - vm_compute. do 7 apply list_elem_of_further. apply list_elem_of_here.
Qed.

(** The objects have to be used one after the other. Two objects made
    from the same file, each call writing what it adds: the first gives
    [foo] the id 2, the second gives 2 to [bar] and 3 to [foo]. *)
Lemma overlapping_objects_reassign :
  ('(a, fs) ← __init__ ∅;
   '(b, fs) ← __init__ fs;
   '(ids_a, _, fs) ← encode a fs "foo" true;
   '(ids_b, _, fs) ← encode b fs "bar foo" true;
   mret (ids_a, ids_b))
  = Ok ([0; 2; 1], [0; 2; 3; 1]).
Proof. by vm_compute. Qed.

(** C3, amended. The tokenizer objects are used one after the other: each
    session constructs its object after the last call of the session
    before it, as the entries of strategy B do. When the vocabulary file
    is absent or loads, and the calls of the sessions before the last pass
    [vocab_update=True], the sessions return, and a token has the same id
    wherever it is encoded, in the same call or in a later one; the calls
    of the last session may pass either value of the flag. So the ids are
    stable on one object whatever the flags, and from one object to the
    next when the earlier objects wrote what they added. *)
Theorem ids_stable (ss : list (list call)) (last : list call) (fs : FS) :
  loadable fs → Forall (Forall persistent) ss →
  ∃ rss fs',
    run_sessions (ss ++ [last]) fs = Ok (rss, fs')
    ∧ ∀ token i j,
        (token, i) ∈ emitted_all (ss ++ [last]) rss →
        (token, j) ∈ emitted_all (ss ++ [last]) rss → i = j.
Proof.
  intros Hok Hpers.
  destruct (run_sessions_total (ss ++ [last]) fs Hok) as (rss & fs' & Hrun & _).
  exists rss, fs'. split; [done |].
  destruct (sessions_ids ss last fs ∅ rss fs' Hpers) as (m & _ & Hm); [| done |].
  { intros self fs0 _. apply map_empty_subseteq. }
  intros token i j Hi%Hm Hj%Hm. congruence.
Qed.

Lemma ids_stable_witness :
  loadable ∅
  ∧ Forall (Forall persistent) [[Encode "foo" true]; [Decode [2]; Encode "bar foo" true]]
  ∧ ∃ rss fs',
      run_sessions ([[Encode "foo" true]; [Decode [2]; Encode "bar foo" true]]
                    ++ [[Encode "baz" false; Encode "foo baz" false]]) ∅
        = Ok (rss, fs')
      ∧ ∀ token i j,
          (token, i) ∈ emitted_all
             ([[Encode "foo" true]; [Decode [2]; Encode "bar foo" true]]
              ++ [[Encode "baz" false; Encode "foo baz" false]]) rss →
          (token, j) ∈ emitted_all
             ([[Encode "foo" true]; [Decode [2]; Encode "bar foo" true]]
              ++ [[Encode "baz" false; Encode "foo baz" false]]) rss →
          i = j.
Proof.
  assert (Hok : loadable ∅) by (intros text; by rewrite lookup_empty).
  assert (Hpers : Forall (Forall persistent)
                    [[Encode "foo" true]; [Decode [2]; Encode "bar foo" true]]).
  { repeat constructor. }
  split; [exact Hok |]. split; [exact Hpers |].
  exact (ids_stable _ [Encode "baz" false; Encode "foo baz" false] ∅ Hok Hpers).
Defined.

(** * Further properties of [do_tokenize.py] *)

(** ** What a call of [encode] adds *)

Lemma linked_known (self : BasicTokenizer) (token : string) :
  linked self → token_to_id self !! token = None ↔ token ∉ vocab self.
Proof. intros [-> _]. apply token_index_lookup_None. Qed.

Lemma vocab_foldl_append (self : BasicTokenizer) (l : list string) :
  vocab (foldl append_token self l) = vocab self ++ l.
Proof.
  revert self. induction l as [|x l IH]; intros self; simpl.
  - by rewrite app_nil_r.
  - rewrite IH. simpl. by rewrite <- app_assoc.
Qed.

Lemma linked_foldl_append (self : BasicTokenizer) (l : list string) :
  linked self → linked (foldl append_token self l).
Proof.
  revert self. induction l as [|x l IH]; intros self Hl; simpl; [done |].
  by apply IH, linked_append.
Qed.

Lemma encode_token_cases (self : BasicTokenizer) (token_ids : list Z)
    (new_tokens : list string) (token : string) :
  linked self →
  ((token ∈ vocab self)
   ∧ ∃ id, encode_token (self, token_ids, new_tokens) token
           = Ok (self, token_ids ++ [id], new_tokens))
  ∨ ((token ∉ vocab self)
     ∧ encode_token (self, token_ids, new_tokens) token
       = Ok (append_token self token, token_ids ++ [len (vocab self)],
             new_tokens ++ [token])).
Proof.
  intros Hl. unfold encode_token.
  destruct (decide (token_to_id self !! token = None)) as [Hnone | Hsome].
  - right. split; [by apply linked_known |].
    unfold getitem. simpl. rewrite lookup_insert_eq. simpl.
    rewrite len_app. change (len [token]) with 1.
    by replace (len (vocab self) + 1 - 1) with (len (vocab self)) by lia.
  - left. split.
    + destruct (decide (token ∈ vocab self)) as [Hin | Hout]; [done |].
      by apply linked_known in Hout.
    + destruct (token_to_id self !! token) as [id |] eqn:Hid; [| done].
      exists id. unfold getitem. by rewrite Hid.
Qed.

Lemma for_each_unseen (tokens : list string) (self : BasicTokenizer)
    (token_ids : list Z) (new_tokens : list string)
    (self' : BasicTokenizer) (ids' : list Z) (news' : list string) :
  linked self →
  for_each encode_token tokens (self, token_ids, new_tokens) = Ok (self', ids', news') →
  self' = foldl append_token self (unseen (vocab self) tokens)
  ∧ news' = new_tokens ++ unseen (vocab self) tokens.
Proof.
  revert self token_ids new_tokens.
  induction tokens as [|token tokens IH]; intros self token_ids new_tokens Hl.
  - simpl. intros [= <- _ <-]. by rewrite app_nil_r.
  - rewrite for_each_cons. simpl unseen.
    destruct (encode_token_cases self token_ids new_tokens token Hl)
      as [[Hin [id ->]] | [Hout ->]]; simpl; intros Hrest.
    + rewrite decide_True by done. by apply (IH _ _ _ Hl Hrest).
    + rewrite decide_False by done.
      apply IH in Hrest as [-> ->]; [| by apply linked_append].
      simpl. by rewrite <- app_assoc.
Qed.

(** The call in full: the new tokens, the new object, the files. *)
Lemma encode_exact (self : BasicTokenizer) (fs : FS) (text : string)
    (vocab_update : bool) :
  linked self →
  let news := unseen (vocab self) (framed text) in
  let self' := foldl append_token self news in
  ∃ ids,
    encode self fs text vocab_update
      = Ok (ids, self',
            if vocab_update && bool_decide (news ≠ []) then save_vocab self' fs else fs)
    ∧ linked self'
    ∧ Forall2 (λ token id, token_to_id self' !! token = Some id) (framed text) ids.
Proof.
  intros Hl news self'.
  destruct (for_each_encode_token (framed text) self [] [] Hl)
    as (self1 & ids & news1 & Hloop & Hext & Hids & _).
  destruct (for_each_unseen _ _ _ _ _ _ _ Hl Hloop) as [Hself Hnews].
  simpl in Hnews. subst self1 news1. fold news. fold self'.
  exists ids. unfold encode. rewrite Hloop. simpl.
  split; [done |]. split; [by apply linked_foldl_append | done].
Qed.

Lemma unseen_nil (known tokens : list string) :
  unseen known tokens = [] ↔ ∀ token, token ∈ tokens → token ∈ known.
Proof.
  revert known. induction tokens as [|t tokens IH]; intros known; simpl.
  - split; [intros _ token []%elem_of_nil | done].
  - destruct (decide (t ∈ known)) as [Hin | Hout].
    + rewrite IH. split.
      * intros Hall token [-> | Ht]%elem_of_cons; auto.
      * intros Hall token Ht. apply Hall. by right.
    + split; [done |]. intros Hall. exfalso. apply Hout, Hall. by left.
Qed.

Lemma unseen_fresh (known tokens : list string) (token : string) :
  token ∈ unseen known tokens → token ∈ tokens ∧ token ∉ known.
Proof.
  revert known. induction tokens as [|t tokens IH]; intros known; simpl.
  - by intros ?%elem_of_nil.
  - destruct (decide (t ∈ known)) as [Hin | Hout].
    + intros [Ht Hk]%IH. split; [by right | done].
    + intros [-> | [Ht Hk]%IH]%elem_of_cons.
      * split; [by left | done].
      * split; [by right |]. intros Hin. apply Hk, elem_of_app. by left.
Qed.

Lemma unseen_NoDup (known tokens : list string) : NoDup (unseen known tokens).
Proof.
  revert known. induction tokens as [|t tokens IH]; intros known; simpl.
  - constructor.
  - destruct (decide (t ∈ known)) as [Hin | Hout]; [apply IH |].
    constructor; [| apply IH].
    intros [_ Hk]%unseen_fresh. apply Hk, elem_of_app. right. by left.
Qed.

Lemma unseen_cons_inv (known tokens : list string) :
  unseen known tokens ≠ [] → ∃ token, token ∈ tokens ∧ token ∉ known.
Proof.
  destruct (unseen known tokens) as [|x l] eqn:Hu; [done |]. intros _.
  exists x. apply (unseen_fresh known tokens). rewrite Hu. by left.
Qed.

Lemma linked_token_known (self : BasicTokenizer) (token : string) (id : Z) :
  linked self → token_to_id self !! token = Some id → token ∈ vocab self.
Proof.
  intros Hl Hid. destruct (decide (token ∈ vocab self)) as [Hin | Hout]; [done |].
  apply (linked_known self token Hl) in Hout. congruence.
Qed.

Lemma Forall2_functional {A B} (R : A → B → Prop) (l : list A) (k1 k2 : list B) :
  (∀ x y1 y2, R x y1 → R x y2 → y1 = y2) →
  Forall2 R l k1 → Forall2 R l k2 → k1 = k2.
Proof.
  intros Hfun H1. revert k2. induction H1 as [|x y l k Hxy _ IH]; intros k2 H2.
  - by inversion H2.
  - inversion H2 as [|x' y' l' k' Hxy' H2']; subst.
    f_equal; [by eapply Hfun | by apply IH].
Qed.

(** X1. A call of [encode] appends to the list exactly the tokens of the
    framed text that the list does not hold, each once, in the order in
    which they first occur; the list never shrinks, and it grows exactly
    when some token of the framed text is not in it. *)
Theorem encode_growth (self : BasicTokenizer) (fs : FS) (text : string)
    (vocab_update : bool) :
  reachable self →
  ∃ ids self' fs',
    encode self fs text vocab_update = Ok (ids, self', fs')
    ∧ vocab self' = vocab self ++ unseen (vocab self) (framed text)
    ∧ NoDup (unseen (vocab self) (framed text))
    ∧ (length (vocab self) ≤ length (vocab self'))%nat
    ∧ ((length (vocab self) < length (vocab self'))%nat
       ↔ ∃ token, token ∈ framed text ∧ token ∉ vocab self).
Proof.
  intros Hl%reachable_linked.
  destruct (encode_exact self fs text vocab_update Hl) as (ids & Henc & _ & _).
  eexists ids, _, _. split; [exact Henc |].
  rewrite vocab_foldl_append, length_app.
  split; [done |]. split; [apply unseen_NoDup |]. split; [lia |].
  split.
  - intros Hlt. apply unseen_cons_inv. intros Hnil. rewrite Hnil in Hlt.
    simpl in Hlt. lia.
  - intros (token & Hin & Hout).
    destruct (unseen (vocab self) (framed text)) as [|x l] eqn:Hu; [| simpl; lia].
    exfalso. apply Hout. by apply (proj1 (unseen_nil _ _) Hu).
Qed.

Lemma encode_growth_witness :
  reachable fresh_tokenizer
  ∧ ∃ ids self' fs',
      encode fresh_tokenizer ∅ "to be, or not to be" true = Ok (ids, self', fs')
      ∧ vocab self'
        = vocab fresh_tokenizer ++ ["to"; "be"; ","; "or"; "not"].
Proof.
  split; [apply fresh_reachable |].
  destruct (encode_growth fresh_tokenizer ∅ "to be, or not to be" true fresh_reachable)
    as (ids & self' & fs' & Henc & Hvocab & _).
  exists ids, self', fs'. split; [exact Henc |]. rewrite Hvocab. by vm_compute.
Defined.

(** X2. When [encode] writes: with [vocab_update=False] the files are left
    as they are; when every token of the framed text is already in the
    list, the object and the files are left as they are, whatever the
    flag; with [vocab_update=True] and a token that is not in the list,
    the vocabulary file is replaced by the whole new list and no other
    path changes. *)
Theorem encode_persistence (self : BasicTokenizer) (fs : FS) (text : string)
    (vocab_update : bool) :
  reachable self →
  ∃ ids self' fs',
    encode self fs text vocab_update = Ok (ids, self', fs')
    ∧ (vocab_update = false → fs' = fs)
    ∧ ((∀ token, token ∈ framed text → token ∈ vocab self) →
       self' = self ∧ fs' = fs)
    ∧ (vocab_update = true →
       (∃ token, token ∈ framed text ∧ token ∉ vocab self) →
       fs' = <[vocab_file := json_dump (vocab self')]> fs).
Proof.
  intros Hl%reachable_linked.
  destruct (encode_exact self fs text vocab_update Hl) as (ids & Henc & _ & _).
  eexists ids, _, _. split; [exact Henc |]. split; [| split].
  - by intros ->.
  - intros Hall. rewrite (proj2 (unseen_nil _ _) Hall).
    by rewrite andb_false_r.
  - intros -> (token & Hin & Hout).
    rewrite bool_decide_eq_true_2; [done |].
    intros Hnil. by apply Hout, (proj1 (unseen_nil _ _) Hnil).
Qed.

Lemma encode_persistence_witness :
  reachable fresh_tokenizer
  ∧ ∃ ids self' fs',
      encode fresh_tokenizer ∅ "hi" false = Ok (ids, self', fs')
      ∧ fs' = ∅.
Proof.
  split; [apply fresh_reachable |].
  destruct (encode_persistence fresh_tokenizer ∅ "hi" false fresh_reachable)
    as (ids & self' & fs' & Henc & Hfalse & _).
  exists ids, self', fs'. split; [exact Henc | by apply Hfalse].
Defined.

(** X3. Encoding a text again: right after a call of [encode], a second
    call on the same text returns the same ids and leaves the object and
    the files as the first call left them, whatever the flags of the two
    calls. *)
Theorem encode_again (self : BasicTokenizer) (fs : FS) (text : string)
    (vocab_update : bool) :
  reachable self →
  ∃ ids self' fs',
    encode self fs text vocab_update = Ok (ids, self', fs')
    ∧ ∀ vocab_update', encode self' fs' text vocab_update' = Ok (ids, self', fs').
Proof.
  intros Hl%reachable_linked.
  destruct (encode_exact self fs text vocab_update Hl) as (ids & Henc & Hl' & Hids).
  eexists ids, _, _. split; [exact Henc |]. intros vocab_update'.
  set (self' := foldl append_token self (unseen (vocab self) (framed text))) in *.
  set (fs' := if vocab_update && bool_decide (unseen (vocab self) (framed text) ≠ [])
              then save_vocab self' fs else fs) in *.
  destruct (encode_exact self' fs' text vocab_update' Hl') as (ids2 & Henc2 & _ & Hids2).
  assert (Hnil : unseen (vocab self') (framed text) = []).
  { apply unseen_nil. intros token Hin.
    apply list_elem_of_lookup in Hin as [i Hi].
    destruct (Forall2_lookup_l _ _ _ _ _ Hids Hi) as (id & _ & Hid).
    by apply (linked_token_known self' token id). }
  rewrite Hnil in Henc2, Hids2.
  change (foldl append_token self' []) with self' in Henc2, Hids2.
  rewrite andb_false_r in Henc2. rewrite Henc2. do 3 f_equal.
  apply (Forall2_functional _ _ _ _ (λ _ _ _ H1 H2, Some_inj _ _
           (eq_trans (eq_sym H1) H2)) Hids2 Hids).
Qed.

Lemma encode_again_witness :
  reachable fresh_tokenizer
  ∧ ∃ ids self' fs',
      encode fresh_tokenizer ∅ "a -- b" true = Ok (ids, self', fs')
      ∧ encode self' fs' "a -- b" false = Ok (ids, self', fs').
Proof.
  split; [apply fresh_reachable |].
  destruct (encode_again fresh_tokenizer ∅ "a -- b" true fresh_reachable)
    as (ids & self' & fs' & Henc & Hagain).
  exists ids, self', fs'. split; [exact Henc | apply Hagain].
Defined.

(** ** Blank texts *)

Lemma segment_blank (text : string) :
  segment text = [] ↔ remove_spaces text = "".
Proof.
  rewrite <- segment_concat. split; [by intros -> |].
  destruct (segment text) as [|piece l] eqn:Hseg; [done |].
  rewrite concat_cons. intros Hcat. exfalso.
  assert (Hin : piece ∈ segment text) by (rewrite Hseg; by left).
  apply segment_elem in Hin as (_ & Hne & _). apply Hne.
  by destruct piece.
Qed.

(** X4. The segmenter yields no segment exactly for the texts made of
    white space only, the empty text among them; for any other text the
    framed text has three tokens or more. *)
Theorem segment_empty_iff (text : string) :
  (segment text = [] ↔ remove_spaces text = "")
  ∧ (remove_spaces text ≠ "" → (3 ≤ length (framed text))%nat).
Proof.
  split; [apply segment_blank |]. intros Hne.
  unfold framed. rewrite !length_app. simpl.
  destruct (segment text) as [|piece l] eqn:Hseg; [| simpl; lia].
  exfalso. by apply Hne, segment_blank.
Qed.

Lemma decode_emitted (self : BasicTokenizer) (tokens : list string) (ids : list Z) :
  linked self →
  Forall2 (λ token id, token_to_id self !! token = Some id) tokens ids →
  decode self ids = String.concat "" tokens.
Proof.
  intros Hl. induction 1 as [|token id tokens ids Hid _ IH]; [done |].
  destruct (linked_token_id self token id Hl Hid) as [_ Hback].
  by rewrite decode_cons, Hback, IH, concat_cons.
Qed.

Lemma concat_framed (text : string) :
  String.concat "" (framed text) = "<|BOS|>" +:+ remove_spaces text +:+ "<|EOS|>".
Proof.
  unfold framed. by rewrite !concat_app, segment_concat.
Qed.

(** X5. A blank text: on every object that a program can hold, encoding a
    text made of white space only, the empty text among them, returns two
    ids, those that the object has for the begin marker and for the end
    marker. *)
Theorem encode_blank (self : BasicTokenizer) (fs : FS) (text : string)
    (vocab_update : bool) :
  reachable self → remove_spaces text = "" →
  ∃ b e self' fs',
    encode self fs text vocab_update = Ok ([b; e], self', fs')
    ∧ token_to_id self' !! "<|BOS|>" = Some b
    ∧ token_to_id self' !! "<|EOS|>" = Some e.
Proof.
  intros Hl%reachable_linked Hblank%segment_blank.
  destruct (encode_exact self fs text vocab_update Hl) as (ids & Henc & _ & Hids).
  assert (Hframed : framed text = ["<|BOS|>"; "<|EOS|>"])
    by (unfold framed; by rewrite Hblank).
  rewrite Hframed in Henc, Hids.
  inversion Hids as [|? b ? ids1 Hb Hrest]; subst.
  inversion Hrest as [|? e ? ids2 He Hnil]; subst.
  inversion Hnil; subst.
  eexists b, e, _, _. split; [exact Henc |]. done.
Qed.

Lemma encode_blank_witness :
  reachable fresh_tokenizer ∧ remove_spaces "   " = ""
  ∧ ∃ b e self' fs', encode fresh_tokenizer ∅ "   " true = Ok ([b; e], self', fs').
Proof.
  assert (Hblank : remove_spaces "   " = "") by (by vm_compute).
  split; [apply fresh_reachable |]. split; [exact Hblank |].
  destruct (encode_blank fresh_tokenizer ∅ "   " true fresh_reachable Hblank)
    as (b & e & self' & fs' & Henc & _).
  by exists b, e, self', fs'.
Defined.

(** ** Through the table and the file *)

(** X6. Encoding then decoding through strategy B: when the vocabulary
    file is absent or loads, [encode_text] returns, and [decode_text] on
    the ids it returned, run on the files it left, returns the begin
    marker, the text without its white space, and the end marker, and
    leaves the files as they are. *)
Theorem B_round_trip
    (external_encode : strategy → string → FS → result (list Z * FS))
    (external_decode : strategy → list Z → FS → result (string * FS))
    (text : string) (fs : FS) :
  loadable fs →
  ∃ ids fs',
    encode_text external_encode text "B" fs = Ok (ids, fs')
    ∧ decode_text external_decode ids "B" fs'
      = Ok ("<|BOS|>" +:+ remove_spaces text +:+ "<|EOS|>", fs').
Proof.
  intros Hok.
  destruct (init_loadable fs Hok) as (self0 & fs0 & Hinit & _).
  pose proof (init_spec _ _ _ Hinit) as (Hl0 & Hsync0 & _).
  destruct (encode_exact self0 fs0 text true Hl0) as (ids & Henc & Hl' & Hids).
  set (news := unseen (vocab self0) (framed text)) in *.
  set (self' := foldl append_token self0 news) in *.
  set (fs' := if true && bool_decide (news ≠ []) then save_vocab self' fs0 else fs0) in *.
  assert (Hsync : synced self' fs').
  { subst fs'. simpl. case_bool_decide as Hnews; [apply synced_save |].
    assert (Hnil : news = []) by (by destruct news).
    subst self'. by rewrite Hnil. }
  exists ids, fs'. split.
  - change (encode_text external_encode text "B" fs) with (B_encode text fs).
    unfold B_encode. rewrite Hinit. simpl. by rewrite Henc.
  - change (decode_text external_decode ids "B" fs') with (B_decode ids fs').
    unfold B_decode. rewrite (init_synced self' fs' Hl' Hsync). simpl.
    by rewrite (decode_emitted self' (framed text) ids Hl' Hids), concat_framed.
Qed.

Lemma B_round_trip_witness :
  loadable ∅
  ∧ ∃ ids fs',
      encode_text (λ _ _ _, Raise (ValueError "")) "Hello, world!" "B" ∅ = Ok (ids, fs')
      ∧ decode_text (λ _ _ _, Raise (ValueError "")) ids "B" fs'
        = Ok ("<|BOS|>Hello,world!<|EOS|>", fs').
Proof.
  assert (Hok : loadable ∅) by (intros text; by rewrite lookup_empty).
  split; [exact Hok |].
  exact (B_round_trip (λ _ _ _, Raise (ValueError "")) (λ _ _ _, Raise (ValueError ""))
           "Hello, world!" ∅ Hok).
Defined.

(** ** Segments are atoms *)

(** X7. A segment is an atom of the segmenter: segmenting a segment again
    gives that segment alone; so segmenting the segments of a text one by
    one gives the segments of the text. *)
Theorem segment_atom (text : string) :
  (∀ piece, piece ∈ segment text → segment piece = [piece])
  ∧ mjoin (segment <$> segment text) = segment text.
Proof.
  assert (Hatom : ∀ piece, piece ∈ segment text → segment piece = [piece]).
  { intros piece Hpiece.
    destruct (segment_elem text piece Hpiece) as (_ & Hne & Hstrip & _).
    destruct (segment_kind text piece Hpiece)
      as [[-> | (c & -> & Hc)] | [Hplain Hfree]].
    - by vm_compute.
    - unfold segment, re_split. simpl re_split_from. rewrite Hc.
      rewrite filter_cons_False by (intros Hn; by apply Hn).
      rewrite filter_cons_True by (by rewrite Hstrip).
      rewrite filter_cons_False by (intros Hn; by apply Hn).
      simpl. by rewrite Hstrip.
    - unfold segment, re_split. rewrite re_split_from_plain by done. simpl.
      rewrite filter_cons_True by (by rewrite Hstrip). simpl.
      by rewrite Hstrip. }
  split; [exact Hatom |].
  induction (segment text) as [|piece l IH]; [done |].
  rewrite fmap_cons. simpl. rewrite Hatom by (by left).
  rewrite IH; [done |]. intros p Hp. apply Hatom. by right.
Qed.

(** ** The command line *)

(** X8. [main] returns exactly for the arguments that pass its four
    checks: one of the two modes, with its input. For those it calls
    [encode_text] or [decode_text] on the input and the name given, and
    prints the name of the tokenizer and the result of that call, or else
    the exception that the call raised, whatever that exception is. For
    the other arguments it raises a [ValueError] with one of the four
    messages, before any tokenizer is called: the exception is the same
    whatever the tokenizers, the name and the files are. *)
Theorem main_returns
    (external_encode : strategy → string → FS → result (list Z * FS))
    (external_decode : strategy → list Z → FS → result (string * FS))
    (args : Args) (fs : FS) :
  (valid_args args ↔ ∃ lines, main external_encode external_decode args fs = Ok lines)
  ∧ (∀ text,
       args_encode args = true → args_decode args = false →
       args_text args = Some text → text ≠ "" →
       (∀ ids fs',
          encode_text external_encode text (args_tokenizer args) fs = Ok (ids, fs') →
          main external_encode external_decode args fs
          = Ok [Line_tokenizer (args_tokenizer args); Line_token_ids ids])
       ∧ (∀ e,
            encode_text external_encode text (args_tokenizer args) fs = Raise e →
            main external_encode external_decode args fs = Ok [Line_error e]))
  ∧ (∀ ids,
       args_encode args = false → args_decode args = true →
       args_token_ids args = Some ids → ids ≠ [] →
       (∀ text fs',
          decode_text external_decode ids (args_tokenizer args) fs = Ok (text, fs') →
          main external_encode external_decode args fs
          = Ok [Line_tokenizer (args_tokenizer args); Line_decoded text])
       ∧ (∀ e,
            decode_text external_decode ids (args_tokenizer args) fs = Raise e →
            main external_encode external_decode args fs = Ok [Line_error e]))
  ∧ (¬ valid_args args →
     ∃ msg,
       msg ∈ ["Cannot use both -e and -d at the same time.";
              "Must specify either -e (encode) or -d (decode).";
              "Text to encode (-s) is required for encoding.";
              "Token IDs to decode (-t) are required for decoding."]
       ∧ ∀ external_encode' external_decode' name' fs',
           main external_encode' external_decode'
             (mkArgs name' (args_encode args) (args_decode args)
                (args_text args) (args_token_ids args)) fs'
           = Raise (ValueError msg))
  ∧ (∀ lines, main external_encode external_decode args fs = Ok lines →
       (∃ ids, lines = [Line_tokenizer (args_tokenizer args); Line_token_ids ids])
       ∨ (∃ text, lines = [Line_tokenizer (args_tokenizer args); Line_decoded text])
       ∨ (∃ e, lines = [Line_error e]))
  ∧ (∀ e, main external_encode external_decode args fs = Raise e →
       ∃ msg, e = ValueError msg).
Proof.
  destruct args as [name enc dec text ids].
  split; [| split; [| split; [| split]]].
  - unfold valid_args, main. simpl. destruct enc, dec; simpl.
    + split; [intros [(_ & [=] & _) | ([=] & _)] | by intros [? [=]]].
    + destruct (falsy_text text) eqn:Htext; simpl.
      * split; [intros [(_ & _ & [=]) | ([=] & _)] | by intros [? [=]]].
      * destruct (encode_text external_encode (default "" text) name fs)
          as [[token_ids fs'] | e0]; (split; [eauto | intros _; left; auto]).
    + destruct (falsy_ids ids) eqn:Hids; simpl.
      * split; [intros [([=] & _) | (_ & _ & [=])] | by intros [? [=]]].
      * destruct (decode_text external_decode (default [] ids) name fs)
          as [[decoded fs'] | e0]; (split; [eauto | intros _; right; auto]).
    + split; [intros [([=] & _) | (_ & [=] & _)] | by intros [? [=]]].
  - simpl. intros t -> -> -> Ht. unfold main. simpl.
    destruct t as [|c t]; [done |]. simpl.
    split; [intros ids' fs' -> | intros e ->]; done.
  - simpl. intros l -> -> -> Hl. unfold main. simpl.
    destruct l as [|id l]; [done |]. simpl.
    split; [intros t fs' -> | intros e ->]; done.
  - unfold valid_args, main. simpl. intros Hinvalid.
    destruct enc, dec; simpl.
    + eexists. split; [apply list_elem_of_here | done].
    + destruct (falsy_text text) eqn:Htext; simpl.
      * eexists. split; [do 2 apply list_elem_of_further; apply list_elem_of_here |].
        by intros.
      * exfalso. apply Hinvalid. by left.
    + destruct (falsy_ids ids) eqn:Hids; simpl.
      * eexists. split; [do 3 apply list_elem_of_further; apply list_elem_of_here |].
        by intros.
      * exfalso. apply Hinvalid. by right.
    + eexists. split; [apply list_elem_of_further, list_elem_of_here | done].
  - unfold main. simpl. destruct enc, dec; simpl.
    + split; [by intros ? [=] | intros e [= <-]; eauto].
    + destruct (falsy_text text) eqn:Htext; simpl.
      * split; [by intros ? [=] | intros e [= <-]; eauto].
      * destruct (encode_text external_encode (default "" text) name fs)
          as [[token_ids fs'] | e0];
          (split; [intros ? [= <-]; eauto | by intros ? [=]]).
    + destruct (falsy_ids ids) eqn:Hids; simpl.
      * split; [by intros ? [=] | intros e [= <-]; eauto].
      * destruct (decode_text external_decode (default [] ids) name fs)
          as [[decoded fs'] | e0];
          (split; [intros ? [= <-]; eauto | by intros ? [=]]).
    + split; [by intros ? [=] | intros e [= <-]; eauto].
Qed.

(** ** The entry CHAR *)

Lemma chr_ord (c : ascii) : chr (ord c) = Some c.
Proof.
  unfold chr, ord. pose proof (N_ascii_bounded c) as Hc.
  rewrite (proj2 (andb_true_iff _ _)) by (split; [apply Z.leb_le | apply Z.ltb_lt]; lia).
  by rewrite N2Z.id, ascii_N_embedding.
Qed.

(** X9. The entry CHAR: the ids of a text are the code points of its
    characters, one for each character, and decoding them gives the text
    back. *)
Theorem CHAR_round_trip (text : string) :
  CHAR_decode (CHAR_encode text) = Some text
  ∧ length (CHAR_encode text) = String.length text
  ∧ Forall (λ id, 0 ≤ id < 256) (CHAR_encode text).
Proof.
  unfold CHAR_decode, CHAR_encode. split; [| split].
  - assert (Hchars : mapM chr (ord <$> list_ascii_of_string text)
                     = Some (list_ascii_of_string text)).
    { apply mapM_Some, Forall2_fmap_l, Forall_Forall2_diag, Forall_forall.
      intros c _. apply chr_ord. }
    rewrite Hchars. simpl. by rewrite string_of_list_ascii_of_string.
  - rewrite length_fmap. induction text as [|c text IH]; simpl; [done | by rewrite IH].
  - apply Forall_fmap, Forall_forall. intros c _. simpl.
    unfold ord. pose proof (N_ascii_bounded c). lia.
Qed.

(** ** The text of the vocabulary file *)

Lemma all_printable_app (s t : string) :
  all_printable s → all_printable t → all_printable (s +:+ t).
Proof. induction s as [|c s IH]; simpl; [done | tauto]. Qed.

Lemma escape_char_printable (c : ascii) : all_printable (escape_char c).
Proof. destruct c as [[] [] [] [] [] [] [] []]; by vm_compute. Qed.

Lemma escape_printable (s : string) : all_printable (escape s).
Proof.
  induction s as [|c s IH]; simpl; [done |].
  apply all_printable_app; [apply escape_char_printable | done].
Qed.

Lemma encoded_printable (s : string) : all_printable (encode_basestring_ascii s).
Proof.
  unfold encode_basestring_ascii. simpl. split; [by vm_compute |].
  apply all_printable_app; [apply escape_printable | by vm_compute].
Qed.

Lemma json_dump_printable (l : list string) : all_printable (json_dump l).
Proof.
  destruct l as [|v l]; [by vm_compute |]. unfold json_dump.
  apply all_printable_app; [by vm_compute |].
  apply all_printable_app; [| by vm_compute].
  generalize (v :: l). clear v l. intros l.
  induction l as [|v l IH]; [done |].
  rewrite fmap_cons. destruct l as [|v' l]; [apply encoded_printable |].
  change (String.concat ", "
            (encode_basestring_ascii v :: (encode_basestring_ascii <$> v' :: l)))
    with (encode_basestring_ascii v +:+ ", "
          +:+ String.concat ", " (encode_basestring_ascii <$> v' :: l)).
  apply all_printable_app; [apply encoded_printable |].
  apply all_printable_app; [by vm_compute | exact IH].
Qed.

(** X10. The vocabulary file is plain text: whatever characters the tokens
    of the object hold, the file that [save_vocab] writes is made of the
    characters space to tilde only, and holds the list of the object. *)
Theorem saved_file_printable (self : BasicTokenizer) (fs : FS) :
  ∃ text, save_vocab self fs !! vocab_file = Some text
          ∧ all_printable text
          ∧ json_load text = Ok (vocab self).
Proof.
  exists (json_dump (vocab self)). split; [apply lookup_insert_eq |].
  split; [apply json_dump_printable | apply json_load_dump_id].
Qed.

(** ** The ids of the markers *)

Lemma store_marked_save (self : BasicTokenizer) (fs : FS) :
  well_marked self → store_marked (save_vocab self fs).
Proof.
  intros (_ & Hnd & Hm) text. unfold save_vocab. rewrite lookup_insert_eq.
  intros [= <-]. exists (vocab self). by rewrite json_load_dump_id.
Qed.

Lemma fresh_well_marked : well_marked fresh_tokenizer.
Proof.
  split; [apply fresh_linked |]. rewrite fresh_vocab. split; [| by exists []].
  apply NoDup_cons. split; [by intros [=]%list_elem_of_singleton |].
  apply NoDup_singleton.
Qed.

Lemma init_marked (fs : FS) :
  store_marked fs →
  ∃ self fs', __init__ fs = Ok (self, fs') ∧ well_marked self ∧ store_marked fs'.
Proof.
  intros Hok. destruct (fs !! vocab_file) as [text |] eqn:Hfile.
  - destruct (Hok text Hfile) as (l & Hload & Hnd & Hm).
    eexists _, fs. split; [by apply (init_loaded fs text l) |].
    split; [| done]. split; [by split | by split].
  - exists fresh_tokenizer, (save_vocab fresh_tokenizer fs).
    split; [by apply init_fresh |]. split; [apply fresh_well_marked |].
    apply store_marked_save, fresh_well_marked.
Qed.

Lemma well_marked_grow (self : BasicTokenizer) (tokens : list string) :
  well_marked self →
  well_marked (foldl append_token self (unseen (vocab self) tokens)).
Proof.
  intros (Hl & Hnd & Hm). split; [by apply linked_foldl_append |].
  rewrite vocab_foldl_append. split.
  - apply NoDup_app. split; [done |]. split; [| apply unseen_NoDup].
    intros x Hx [_ Hout]%unseen_fresh. done.
  - unfold marked. etrans; [exact Hm |]. by apply prefix_app_r.
Qed.

Lemma invoke_marked (c : call) (self : BasicTokenizer) (fs : FS) :
  well_marked self → store_marked fs →
  ∃ r self' fs',
    invoke c self fs = Ok (r, self', fs') ∧ well_marked self' ∧ store_marked fs'.
Proof.
  intros Hwm Hok. destruct c as [text vocab_update | token_ids].
  - pose proof Hwm as (Hl & _).
    destruct (encode_exact self fs text vocab_update Hl) as (ids & Henc & _ & _).
    pose proof (well_marked_grow self (framed text) Hwm) as Hwm'.
    eexists (Ids ids), _, _. simpl. rewrite Henc. simpl.
    split; [done |]. split; [exact Hwm' |].
    destruct (vocab_update && _); [by apply store_marked_save | done].
  - by exists (Text (decode self token_ids)), self, fs.
Qed.

Lemma run_calls_marked (cs : list call) (self : BasicTokenizer) (fs : FS) :
  well_marked self → store_marked fs →
  ∃ rs self' fs',
    run_calls cs self fs = Ok (rs, self', fs') ∧ well_marked self' ∧ store_marked fs'.
Proof.
  revert self fs. induction cs as [|c cs IH]; intros self fs Hwm Hok.
  - by exists [], self, fs.
  - destruct (invoke_marked c self fs Hwm Hok) as (r & self1 & fs1 & Hstep & Hwm1 & Hok1).
    destruct (IH self1 fs1 Hwm1 Hok1) as (rs & self2 & fs2 & Hrest & Hwm2 & Hok2).
    exists (r :: rs), self2, fs2.
    change (run_calls (c :: cs) self fs)
      with (invoke c self fs ≫= λ '(r, self, fs),
              run_calls cs self fs ≫= λ '(rs, self, fs), mret (r :: rs, self, fs)).
    rewrite Hstep. simpl. rewrite Hrest. done.
Qed.

Lemma session_marked (cs : list call) (fs : FS) :
  store_marked fs →
  ∃ rs self fs',
    session cs fs = Ok (rs, self, fs') ∧ well_marked self ∧ store_marked fs'.
Proof.
  intros Hok. destruct (init_marked fs Hok) as (self0 & fs0 & Hinit & Hwm0 & Hok0).
  destruct (run_calls_marked cs self0 fs0 Hwm0 Hok0) as (rs & self & fs' & Hrun & Hwm & Hok').
  exists rs, self, fs'. unfold session. rewrite Hinit. done.
Qed.

Lemma run_sessions_marked (ss : list (list call)) (fs : FS) :
  store_marked fs →
  ∃ rss fs', run_sessions ss fs = Ok (rss, fs') ∧ store_marked fs'.
Proof.
  revert fs. induction ss as [|cs ss IH]; intros fs Hok.
  - by exists [], fs.
  - destruct (session_marked cs fs Hok) as (rs & self & fs1 & Hs & _ & Hok1).
    destruct (IH fs1 Hok1) as (rss & fs' & Hrest & Hok').
    exists (rs :: rss), fs'.
    change (run_sessions (cs :: ss) fs)
      with (session cs fs ≫= λ '(rs, _, fs),
              run_sessions ss fs ≫= λ '(rss, fs), mret (rs :: rss, fs)).
    rewrite Hs. simpl. rewrite Hrest. done.
Qed.

Lemma well_marked_ids (self : BasicTokenizer) :
  well_marked self →
  token_to_id self !! "<|BOS|>" = Some 0 ∧ token_to_id self !! "<|EOS|>" = Some 1.
Proof.
  intros ([Ht _] & Hnd & [rest Hm]). rewrite Ht. split.
  - apply (token_index_lookup_NoDup _ 0%nat); [done |]. by rewrite Hm.
  - apply (token_index_lookup_NoDup _ 1%nat); [done |]. by rewrite Hm.
Qed.

(** X11. The ids of the markers: when the tokenizer starts without a
    vocabulary file, or from a file without repetition that starts with the
    two markers, then through any sessions and calls the begin marker
    keeps the id 0 and the end marker the id 1, and every call of [encode]
    returns 0, one id for each segment of the text, and 1. *)
Theorem marker_ids_fixed (fs : FS) (ss : list (list call)) (cs : list call) :
  store_marked fs →
  ∃ rss fs1 rs self fs2,
    run_sessions ss fs = Ok (rss, fs1)
    ∧ session cs fs1 = Ok (rs, self, fs2)
    ∧ token_to_id self !! "<|BOS|>" = Some 0
    ∧ token_to_id self !! "<|EOS|>" = Some 1
    ∧ ∀ text vocab_update, ∃ middle self' fs3,
        encode self fs2 text vocab_update = Ok (0 :: middle ++ [1], self', fs3)
        ∧ length middle = length (segment text).
Proof.
  intros Hok.
  destruct (run_sessions_marked ss fs Hok) as (rss & fs1 & Hrun & Hok1).
  destruct (session_marked cs fs1 Hok1) as (rs & self & fs2 & Hs & Hwm & _).
  exists rss, fs1, rs, self, fs2. split; [done |]. split; [done |].
  destruct (well_marked_ids self Hwm) as [Hb He]. split; [done |]. split; [done |].
  intros text vocab_update. pose proof Hwm as (Hl & _).
  destruct (encode_exact self fs2 text vocab_update Hl) as (ids & Henc & _ & Hids).
  destruct (well_marked_ids _ (well_marked_grow self (framed text) Hwm)) as [Hb' He'].
  unfold framed in Hids at 2.
  apply Forall2_app_inv_l in Hids as (k1 & k2 & Hbos & Hrest & ->).
  apply Forall2_app_inv_l in Hrest as (middle & k3 & Hmid & Heos & ->).
  inversion Hbos as [|? b ? ? Hb1 Hnil1]; subst. inversion Hnil1; subst.
  inversion Heos as [|? e ? ? He1 Hnil2]; subst. inversion Hnil2; subst.
  assert (b = 0) as -> by congruence. assert (e = 1) as -> by congruence.
  eexists middle, _, _. split; [exact Henc |].
  symmetry. by eapply Forall2_length.
Qed.

Lemma marker_ids_fixed_witness :
  store_marked ∅
  ∧ ∃ rss fs1 rs self fs2,
      run_sessions [[Encode "one two" true]; [Encode "three" false]] ∅ = Ok (rss, fs1)
      ∧ session [Encode "four, five" true] fs1 = Ok (rs, self, fs2)
      ∧ token_to_id self !! "<|BOS|>" = Some 0
      ∧ token_to_id self !! "<|EOS|>" = Some 1.
Proof.
  assert (Hok : store_marked ∅) by (intros text; by rewrite lookup_empty).
  split; [exact Hok |].
  destruct (marker_ids_fixed ∅ [[Encode "one two" true]; [Encode "three" false]]
              [Encode "four, five" true] Hok)
    as (rss & fs1 & rs & self & fs2 & Hrun & Hs & Hb & He & _).
  by exists rss, fs1, rs, self, fs2.
Defined.

(** * Properties of [llm_driver.py] *)

(** ** Stripping *)

Lemma lstrip_first (s : string) : first_not_space (lstrip s).
Proof.
  induction s as [|c s IH]; simpl; [done |].
  destruct (isspace c) eqn:Hc; [done | simpl; done].
Qed.

Lemma rstrip_first (s : string) : first_not_space s → first_not_space (rstrip s).
Proof.
  destruct s as [|c s]; simpl; [done |]. intros Hc.
  destruct (rstrip s); simpl; [by rewrite Hc | done].
Qed.

Lemma rstrip_last (s : string) : last_not_space (rstrip s).
Proof.
  induction s as [|c s IH]; simpl; [done |].
  destruct (rstrip s) as [|d r] eqn:Hr.
  - destruct (isspace c) eqn:Hc; simpl; done.
  - simpl. simpl in IH. done.
Qed.

Lemma lstrip_id (s : string) : first_not_space s → lstrip s = s.
Proof. destruct s as [|c s]; simpl; [done |]. by intros ->. Qed.

Lemma rstrip_id (s : string) : last_not_space s → rstrip s = s.
Proof.
  induction s as [|c s IH]; simpl; [done |].
  destruct s as [|d s].
  - simpl. by intros ->.
  - intros Hlast. rewrite IH by done. done.
Qed.

Lemma strip_strip (s : string) : strip (strip s) = strip s.
Proof.
  unfold strip at 1.
  rewrite lstrip_id by (apply rstrip_first, lstrip_first).
  apply rstrip_id, rstrip_last.
Qed.

Lemma strip_nonempty_first (s : string) :
  strip s ≠ "" → remove_spaces (strip s) ≠ "".
Proof.
  pose proof (rstrip_first (lstrip s) (lstrip_first s)) as Hfirst.
  fold (strip s) in Hfirst. destruct (strip s) as [|c t]; [done |].
  simpl in *. by rewrite Hfirst.
Qed.

Lemma occurrences_lstrip (c : ascii) (s : string) :
  (occurrences c (lstrip s) ≤ occurrences c s)%nat.
Proof.
  induction s as [|d s IH]; simpl; [done |].
  destruct (isspace d); simpl; lia.
Qed.

Lemma occurrences_rstrip (c : ascii) (s : string) :
  (occurrences c (rstrip s) ≤ occurrences c s)%nat.
Proof.
  induction s as [|d s IH]; simpl; [done |].
  destruct (rstrip s) as [|e r].
  - destruct (isspace d); simpl; lia.
  - simpl in *. lia.
Qed.

Lemma occurrences_strip (c : ascii) (s : string) :
  (occurrences c (strip s) ≤ occurrences c s)%nat.
Proof.
  unfold strip. etrans; [apply occurrences_rstrip | apply occurrences_lstrip].
Qed.

Lemma lstrip_snoc_space (s : string) (w : ascii) :
  isspace w = true →
  lstrip (s +:+ String w "")
  = match lstrip s with EmptyString => "" | t => t +:+ String w "" end.
Proof.
  intros Hw. induction s as [|c s IH]; simpl.
  - by rewrite Hw.
  - destruct (isspace c); [done | done].
Qed.

Lemma rstrip_snoc_space (s : string) (w : ascii) :
  isspace w = true → rstrip (s +:+ String w "") = rstrip s.
Proof.
  intros Hw. induction s as [|c s IH]; simpl.
  - by rewrite Hw.
  - by rewrite IH.
Qed.

Lemma strip_snoc_space (s : string) (w : ascii) :
  isspace w = true → strip (s +:+ String w "") = strip s.
Proof.
  intros Hw. unfold strip. rewrite lstrip_snoc_space by done.
  destruct (lstrip s) as [|c t] eqn:Ht; [done |].
  by rewrite rstrip_snoc_space.
Qed.

Lemma nonblank_stripped_elem (lines : list string) (x : string) :
  x ∈ nonblank_stripped lines ↔ ∃ line, line ∈ lines ∧ x = strip line ∧ x ≠ "".
Proof.
  unfold nonblank_stripped. rewrite list_elem_of_fmap. split.
  - intros (line & -> & [Hne Hin]%list_elem_of_filter). by exists line.
  - intros (line & Hin & -> & Hne). exists line. split; [done |].
    by apply list_elem_of_filter.
Qed.

Lemma nonblank_stripped_app (l k : list string) :
  nonblank_stripped (l ++ k) = nonblank_stripped l ++ nonblank_stripped k.
Proof. unfold nonblank_stripped. by rewrite filter_app, fmap_app. Qed.

Lemma nonblank_stripped_length (l : list string) :
  (length (nonblank_stripped l) ≤ length l)%nat.
Proof. unfold nonblank_stripped. rewrite length_fmap. apply length_filter. Qed.

(** ** The lines of a file *)

Lemma string_ind2 (P : string → Prop) :
  P "" →
  (∀ c rest, P rest → (∀ d rest', rest = String d rest' → P rest') → P (String c rest)) →
  ∀ s, P s.
Proof.
  intros Hnil Hcons s.
  cut (P s ∧ ∀ d s', s = String d s' → P s'); [tauto |].
  induction s as [|c s [IH1 IH2]].
  - split; [done | by intros ? ? [=]].
  - split; [| by intros ? ? [= _ <-]]. by apply Hcons.
Qed.

Lemma universal_newlines_no_CR (s : string) :
  occurrences CR (universal_newlines s) = 0%nat.
Proof.
  induction s as [|c rest IH IH'] using string_ind2; [done |].
  simpl. destruct (Ascii.eqb_spec c CR) as [-> | Hc].
  - simpl. destruct rest as [|d rest']; [done |].
    destruct (Ascii.eqb d LF); [by apply (IH' d rest') | exact IH].
  - simpl. rewrite IH. by destruct (Ascii.eqb_spec c CR).
Qed.

Lemma readlines_from_concat (s line : string) :
  String.concat "" (readlines_from line s) = line +:+ s.
Proof.
  revert line. induction s as [|c s IH]; intros line; simpl.
  - rewrite append_nil_r. by case_decide.
  - destruct (Ascii.eqb_spec c LF) as [-> | Hc].
    + by rewrite concat_cons, IH, append_snoc.
    + by rewrite IH, append_snoc.
Qed.

(** A line of [readlines]: a body without line feed, then a line feed or
    nothing. *)
Lemma readlines_from_shape (s line l : string) :
  occurrences LF line = 0%nat → l ∈ readlines_from line s →
  ∃ body, (l = body ∨ l = body +:+ String LF "") ∧ occurrences LF body = 0%nat.
Proof.
  revert line. induction s as [|c s IH]; intros line Hline; simpl.
  - case_decide; [by intros ?%elem_of_nil |].
    intros ->%list_elem_of_singleton. exists line. auto.
  - destruct (Ascii.eqb_spec c LF) as [-> | Hc].
    + intros [-> | Hin]%elem_of_cons; [exists line; auto |].
      by apply (IH "").
    + apply IH. rewrite occurrences_app, Hline. simpl.
      by destruct (Ascii.eqb_spec c LF).
Qed.

Lemma occurrences_elem (c : ascii) (x : string) (l : list string) :
  x ∈ l → (occurrences c x ≤ occurrences c (String.concat "" l))%nat.
Proof.
  induction l as [|y l IH]; [by intros ?%elem_of_nil |].
  rewrite concat_cons, occurrences_app.
  intros [-> | Hin]%elem_of_cons; [lia |]. specialize (IH Hin). lia.
Qed.

Lemma readlines_line (text l : string) :
  l ∈ readlines text →
  occurrences LF (strip l) = 0%nat ∧ occurrences CR (strip l) = 0%nat.
Proof.
  unfold readlines. intros Hin. split.
  - destruct (readlines_from_shape _ "" l eq_refl Hin) as (body & [-> | ->] & Hbody).
    + pose proof (occurrences_strip LF body). lia.
    + rewrite strip_snoc_space by done.
      pose proof (occurrences_strip LF body). lia.
  - pose proof (occurrences_elem CR l _ Hin) as Hle.
    rewrite readlines_from_concat in Hle. simpl in Hle.
    rewrite universal_newlines_no_CR in Hle.
    pose proof (occurrences_strip CR l). lia.
Qed.

Lemma elem_take {A} (l : list A) (n : nat) (x : A) : x ∈ take n l → x ∈ l.
Proof. intros Hin. rewrite <- (take_drop n l). apply elem_of_app. by left. Qed.

Lemma elem_drop {A} (l : list A) (n : nat) (x : A) : x ∈ drop n l → x ∈ l.
Proof. intros Hin. rewrite <- (take_drop n l). apply elem_of_app. by right. Qed.

Lemma py_slice_elem {A} (l : list A) (start stop : Z) (x : A) :
  x ∈ py_slice l start stop → x ∈ l.
Proof. unfold py_slice. by intros Hin%elem_take%elem_drop. Qed.

Lemma py_slice_length {A} (l : list A) (start stop : Z) :
  (length (py_slice l start stop) ≤ length l)%nat.
Proof. unfold py_slice. rewrite length_take, length_drop. lia. Qed.

(** X12. What [read_lines_from_file] returns: without a file at the path,
    the error of [open]; with one, for every start and end, a list of
    lines, no more than the file has, in which every line is non-empty,
    is left as it is by [strip], holds no line feed and no carriage
    return, and has a segment at least, so that its framed text has three
    tokens or more. *)
Theorem read_lines_shape (file_path : string) (start_line end_line : Z) (fs : FS) :
  match fs !! file_path with
  | None => read_lines_from_file file_path start_line end_line fs
            = FileNotFoundError file_path
  | Some text =>
      ∃ lines,
        read_lines_from_file file_path start_line end_line fs = Lines lines
        ∧ (length lines ≤ length (readlines text))%nat
        ∧ Forall (λ line, line ≠ "" ∧ strip line = line
                          ∧ occurrences LF line = 0%nat
                          ∧ occurrences CR line = 0%nat
                          ∧ segment line ≠ []
                          ∧ (3 ≤ length (framed line))%nat) lines
  end.
Proof.
  unfold read_lines_from_file.
  destruct (fs !! file_path) as [text |]; [| done].
  set (lines := readlines text).
  set (a := if start_line <? 0 then 0 else start_line).
  set (b := if (end_line =? -1) || (len lines <=? end_line) then len lines else end_line).
  simpl. destruct (b <=? a).
  - exists []. split; [done |]. split; [simpl; lia | constructor].
  - eexists. split; [done |]. split.
    + etrans; [apply nonblank_stripped_length | apply py_slice_length].
    + apply Forall_forall. intros x (l & Hl%py_slice_elem & -> & Hne)%nonblank_stripped_elem.
      destruct (readlines_line text l Hl) as [HLF HCR].
      pose proof (strip_nonempty_first l Hne) as Hrs.
      assert (Hseg : segment (strip l) ≠ []) by (by rewrite segment_blank).
      split; [done |]. split; [apply strip_strip |]. split; [done |].
      split; [done |]. split; [done |].
      unfold framed. rewrite !length_app. simpl.
      destruct (segment (strip l)); [done | simpl; lia].
Qed.

(** ** Ranges of lines *)

Lemma range_app {A} (l : list A) (i j k : nat) :
  (i ≤ j ≤ k)%nat → range l i j ++ range l j k = range l i k.
Proof.
  intros Hijk. unfold range.
  replace (drop j l) with (drop (j - i) (drop i l))
    by (rewrite drop_drop; f_equal; lia).
  rewrite take_take_drop. f_equal. lia.
Qed.

Lemma range_all {A} (l : list A) (n : nat) :
  (length l ≤ n)%nat → range l 0 n = l.
Proof. intros Hn. unfold range. rewrite drop_0, Nat.sub_0_r. by apply take_ge. Qed.

Lemma range_empty {A} (l : list A) (i j : nat) : (j ≤ i)%nat → range l i j = [].
Proof. intros Hji. unfold range. by replace (j - i)%nat with 0%nat by lia. Qed.

Lemma range_beyond {A} (l : list A) (i j k : nat) :
  (length l ≤ j)%nat → (length l ≤ k)%nat → range l i j = range l i k.
Proof.
  intros Hj Hk. unfold range.
  rewrite !take_ge; [done | rewrite length_drop; lia | rewrite length_drop; lia].
Qed.

Lemma py_slice_range {A} (l : list A) (a b : Z) :
  0 ≤ a → a ≤ b → b ≤ len l → py_slice l a b = range l (Z.to_nat a) (Z.to_nat b).
Proof.
  intros Ha Hab Hb. unfold py_slice, range, slice_index.
  rewrite !(proj2 (Z.ltb_ge _ _)) by lia.
  rewrite !Z.min_l by lia. do 2 f_equal. lia.
Qed.

(** The function on a file that exists, for a start and an end that are
    not negative. *)
Lemma read_lines_range (file_path text : string) (a b : Z) (fs : FS) :
  fs !! file_path = Some text → 0 ≤ a → 0 ≤ b →
  read_lines_from_file file_path a b fs
  = Lines (nonblank_stripped (range (readlines text) (Z.to_nat a) (Z.to_nat b))).
Proof.
  intros Hfile Ha Hb. unfold read_lines_from_file. rewrite Hfile.
  set (lines := readlines text).
  rewrite (proj2 (Z.ltb_ge a 0)) by lia.
  rewrite (proj2 (Z.eqb_neq b (-1))) by lia. simpl orb.
  unfold len. destruct (Z.leb_spec (Z.of_nat (length lines)) b) as [Hlen | Hlen].
  - destruct (Z.leb_spec (Z.of_nat (length lines)) a) as [Hge | Hlt].
    + unfold range. rewrite drop_ge by lia. by rewrite take_nil.
    + fold (len lines). rewrite py_slice_range by (unfold len; lia).
      do 2 f_equal. unfold len. rewrite Nat2Z.id.
      apply range_beyond; lia.
  - destruct (Z.leb_spec b a) as [Hba | Hab].
    + rewrite range_empty by lia. done.
    + by rewrite py_slice_range by (unfold len; lia).
Qed.

(** X13. Adjacent ranges: on a file that exists, for line numbers
    0 <= a <= b <= c, the lines read from a to b followed by the lines
    read from b to c are the lines read from a to c; the line at the end
    number is not read. *)
Theorem read_lines_adjacent (file_path text : string) (a b c : Z) (fs : FS) :
  fs !! file_path = Some text → 0 ≤ a → a ≤ b → b ≤ c →
  ∃ first second,
    read_lines_from_file file_path a b fs = Lines first
    ∧ read_lines_from_file file_path b c fs = Lines second
    ∧ read_lines_from_file file_path a c fs = Lines (first ++ second).
Proof.
  intros Hfile Ha Hab Hbc.
  rewrite !(read_lines_range file_path text) by (done || lia).
  eexists _, _. split; [done |]. split; [done |].
  rewrite <- nonblank_stripped_app, range_app; [done | lia].
Qed.

Lemma read_lines_adjacent_witness :
  let text := "a" +:+ String LF ("  " +:+ String CR (String LF "b c ")) in
  ({["f" := text]} : FS) !! "f" = Some text
  ∧ read_lines_from_file "f" 0 2 {["f" := text]} = Lines ["a"]
  ∧ read_lines_from_file "f" 2 5 {["f" := text]} = Lines ["b c"]
  ∧ read_lines_from_file "f" 0 5 {["f" := text]} = Lines (["a"] ++ ["b c"]).
Proof.
  intros text.
  assert (Hfile : ({["f" := text]} : FS) !! "f" = Some text) by apply lookup_singleton_eq.
  split; [exact Hfile |].
  destruct (read_lines_adjacent "f" text 0 2 5 {["f" := text]} Hfile)
    as (first & second & H1 & H2 & H3); [lia.. |].
  assert (Hfirst : read_lines_from_file "f" 0 2 {["f" := text]} = Lines ["a"])
    by (by vm_compute).
  assert (Hsecond : read_lines_from_file "f" 2 5 {["f" := text]} = Lines ["b c"])
    by (by vm_compute).
  rewrite Hfirst in H1. rewrite Hsecond in H2.
  injection H1 as <-. injection H2 as <-.
  split; [exact Hfirst |]. split; [exact Hsecond |]. exact H3.
Defined.

Lemma read_lines_to_end (file_path text : string) (a : Z) (fs : FS) :
  fs !! file_path = Some text →
  read_lines_from_file file_path a (-1) fs
  = read_lines_from_file file_path a (len (readlines text)) fs.
Proof.
  intros Hfile. unfold read_lines_from_file. rewrite Hfile.
  change (-1 =? -1) with true. rewrite Z.leb_refl, orb_true_r. done.
Qed.

Lemma read_lines_from_start (file_path : string) (a b : Z) (fs : FS) :
  read_lines_from_file file_path a b fs
  = read_lines_from_file file_path (Z.max a 0) b fs.
Proof.
  unfold read_lines_from_file. destruct (fs !! file_path) as [text |]; [| done].
  destruct (Z.ltb_spec a 0) as [Ha | Ha].
  - rewrite Z.max_r by lia. done.
  - rewrite Z.max_l by lia. by rewrite (proj2 (Z.ltb_ge a 0)).
Qed.

Lemma read_lines_negative_end (file_path text : string) (a b : Z) (fs : FS) :
  fs !! file_path = Some text → b < -1 →
  read_lines_from_file file_path a b fs = Lines [].
Proof.
  intros Hfile Hb. unfold read_lines_from_file. rewrite Hfile.
  rewrite (proj2 (Z.eqb_neq b (-1))) by lia.
  rewrite (proj2 (Z.leb_gt (len (readlines text)) b)) by (unfold len; lia).
  simpl orb. cbv iota.
  rewrite (proj2 (Z.leb_le b _)); [done |]. destruct (Z.ltb_spec a 0); lia.
Qed.

(** X14. Any range is a part of the whole: on a file that exists, for
    every start and end, negative and too large ones among them, the lines
    returned are consecutive lines of what the function returns for the
    whole file, that is for the start 0 and the end -1. *)
Theorem read_lines_part (file_path : string) (start_line end_line : Z) (fs : FS) :
  is_Some (fs !! file_path) →
  ∃ before lines after,
    read_lines_from_file file_path start_line end_line fs = Lines lines
    ∧ read_lines_from_file file_path 0 (-1) fs = Lines (before ++ lines ++ after).
Proof.
  intros [text Hfile].
  set (lines := readlines text).
  assert (Hall : read_lines_from_file file_path 0 (-1) fs
                 = Lines (nonblank_stripped lines)).
  { rewrite (read_lines_to_end file_path text) by done.
    rewrite (read_lines_range file_path text) by (done || unfold len; lia).
    fold lines. unfold len. rewrite Nat2Z.id. by rewrite range_all. }
  rewrite Hall.
  assert (Hcase : ∃ i j, read_lines_from_file file_path start_line end_line fs
                         = Lines (nonblank_stripped (range lines i j))).
  { destruct (Z.ltb_spec end_line (-1)) as [Hneg | Hend].
    - exists 0%nat, 0%nat. by rewrite (read_lines_negative_end file_path text).
    - rewrite read_lines_from_start.
      destruct (Z.eqb_spec end_line (-1)) as [-> | Hne].
      + rewrite (read_lines_to_end file_path text) by done.
        rewrite (read_lines_range file_path text) by (done || unfold len; lia).
        by eexists _, _.
      + rewrite (read_lines_range file_path text) by (done || lia).
        by eexists _, _. }
  destruct Hcase as (i & j & ->).
  destruct (decide (i ≤ j)%nat) as [Hij | Hji].
  - exists (nonblank_stripped (range lines 0 i)), (nonblank_stripped (range lines i j)),
      (nonblank_stripped (range lines j (j `max` length lines))).
    split; [done |]. rewrite <- !nonblank_stripped_app. do 2 f_equal.
    rewrite range_app by lia. rewrite range_app by lia.
    symmetry. apply range_all. lia.
  - exists [], [], (nonblank_stripped lines).
    rewrite range_empty by lia. done.
Qed.

Lemma read_lines_part_witness :
  let text := "a" +:+ String LF ("  " +:+ String CR (String LF "b c ")) in
  is_Some (({["f" := text]} : FS) !! "f")
  ∧ ∃ before lines after,
      read_lines_from_file "f" (-3) 1 {["f" := text]} = Lines lines
      ∧ read_lines_from_file "f" 0 (-1) {["f" := text]}
        = Lines (before ++ lines ++ after).
Proof.
  intros text.
  assert (Hfile : is_Some (({["f" := text]} : FS) !! "f"))
    by (rewrite lookup_singleton_eq; by eexists).
  split; [exact Hfile |].
  exact (read_lines_part "f" (-3) 1 {["f" := text]} Hfile).
Defined.

(** ** Lines through strategy B *)

Lemma holds_functional (fs : FS) (l l' : list string) :
  holds fs l → holds fs l' → l = l'.
Proof. intros (t & Ht & Hl) (t' & Ht' & Hl'). congruence. Qed.

Lemma holds_loadable (fs : FS) (l : list string) : holds fs l → loadable fs.
Proof. intros (t & Ht & Hl) text Htext. exists l. congruence. Qed.

Lemma entry_prefix (l l' : list string) (token : string) (id : Z) :
  l `prefix_of` l' → entry l token id → entry l' token id.
Proof.
  intros Hpre [Hid Hl]. split; [done |]. by eapply prefix_lookup_Some.
Qed.

Lemma bind_Ok_eq {A B} (a : A) (k : A → result B) : Ok a ≫= k = k a.
Proof. done. Qed.

(** One call of the encode entry of strategy B, seen from the file. *)
Lemma B_encode_holds (text : string) (fs : FS) :
  loadable fs →
  ∃ ids fs' l',
    B_encode text fs = Ok (ids, fs')
    ∧ holds fs' l'
    ∧ (∀ l, holds fs l → l `prefix_of` l')
    ∧ Forall2 (entry l') (framed text) ids.
Proof.
  intros Hok.
  destruct (init_loadable fs Hok) as (self0 & fs0 & Hinit & _).
  pose proof (init_spec _ _ _ Hinit) as (Hl0 & Hsync0 & Hcase).
  destruct (encode_exact self0 fs0 text true Hl0) as (ids & Henc & Hl' & Hids).
  set (news := unseen (vocab self0) (framed text)) in *.
  set (self' := foldl append_token self0 news) in *.
  set (fs' := if true && bool_decide (news ≠ []) then save_vocab self' fs0 else fs0) in *.
  assert (Hsync : synced self' fs').
  { subst fs'. simpl. case_bool_decide as Hnews; [apply synced_save |].
    assert (Hnil : news = []) by (by destruct news).
    subst self'. by rewrite Hnil. }
  exists ids, fs', (vocab self'). split; [| split; [exact Hsync | split]].
  - unfold B_encode. rewrite Hinit. simpl. by rewrite Henc.
  - intros l Hholds. destruct Hcase as [(Hnone & _) | (_ & ->)].
    + destruct Hholds as (t & Ht & _). congruence.
    + rewrite (holds_functional fs l (vocab self0) Hholds Hsync0).
      subst self'. rewrite vocab_foldl_append. by apply prefix_app_r.
  - eapply Forall2_impl; [exact Hids |]. intros token id Hid.
    destruct Hl' as [Ht _]. rewrite Ht in Hid.
    apply token_index_lookup_Some in Hid as [Hrange Hat]. split; [lia | done].
Qed.

(** One call of the decode entry on ids that are entries of the list of the
    file. *)
Lemma B_decode_holds (tokens : list string) (ids : list Z) (fs : FS)
    (l : list string) :
  holds fs l → Forall2 (entry l) tokens ids →
  B_decode ids fs = Ok (String.concat "" tokens, fs).
Proof.
  intros (t & Ht & Hload) Hids. unfold B_decode.
  rewrite (init_loaded fs t l Ht Hload). simpl. do 2 f_equal.
  induction Hids as [|token id tokens ids [Hid Hat] _ IH]; [done |].
  rewrite decode_cons, IH, concat_cons. f_equal. simpl.
  rewrite id_index_lookup, decide_True by done. by rewrite Hat.
Qed.

Lemma encode_data_B
    (external_encode : strategy → string → FS → result (list Z * FS))
    (lines : list string) (fs : FS) :
  loadable fs →
  ∃ idss fs',
    encode_data external_encode lines "B" fs = Ok (idss, fs')
    ∧ loadable fs'
    ∧ (∀ l, holds fs l → ∃ l', holds fs' l' ∧ l `prefix_of` l')
    ∧ (lines ≠ [] → ∃ l', holds fs' l')
    ∧ (∀ l', holds fs' l' →
         Forall2 (λ line ids, Forall2 (entry l') (framed line) ids) lines idss).
Proof.
  revert fs. induction lines as [|line lines IH]; intros fs Hok.
  - exists [], fs. split; [done |]. split; [done |].
    split; [intros l Hl; by exists l |]. split; [done |]. intros l' _. constructor.
  - destruct (B_encode_holds line fs Hok) as (ids & fs1 & l1 & Henc & Hh1 & Hpre1 & Hids).
    destruct (IH fs1 (holds_loadable _ _ Hh1))
      as (idss & fs' & Hrest & Hok' & Hpre & _ & Hall).
    destruct (Hpre l1 Hh1) as (l' & Hh' & Hpre').
    exists (ids :: idss), fs'.
    change (encode_data external_encode (line :: lines) "B" fs)
      with (B_encode line fs ≫= λ '(token_ids, fs),
              encode_data external_encode lines "B" fs ≫= λ '(encoded_data, fs),
                Ok (token_ids :: encoded_data, fs)).
    rewrite Henc. simpl. rewrite Hrest. simpl.
    split; [done |]. split; [done |]. split; [| split].
    + intros l Hl. exists l'. split; [done |]. etrans; [by apply Hpre1 | done].
    + intros _. by exists l'.
    + intros l'' Hh''. rewrite (holds_functional fs' l'' l' Hh'' Hh').
      constructor; [| by apply Hall].
      eapply Forall2_impl; [exact Hids |]. intros token id. by apply entry_prefix.
Qed.

Lemma decode_data_B
    (external_decode : strategy → list Z → FS → result (string * FS))
    (lines : list string) (idss : list (list Z)) (fs : FS) (l : list string) :
  holds fs l →
  Forall2 (λ line ids, Forall2 (entry l) (framed line) ids) lines idss →
  decode_data external_decode idss "B" fs = Ok (decoded_line <$> lines, fs).
Proof.
  intros Hh. induction 1 as [|line ids lines idss Hids _ IH]; [done |].
  change (decode_data external_decode (ids :: idss) "B" fs)
    with (B_decode ids fs ≫= λ '(text, fs),
            decode_data external_decode idss "B" fs ≫= λ '(decoded_data, fs),
              Ok (text :: decoded_data, fs)).
  rewrite (B_decode_holds (framed line) ids fs l Hh Hids), concat_framed.
  rewrite bind_Ok_eq, IH, bind_Ok_eq. done.
Qed.

(** X15. Lines through strategy B: when the vocabulary file is absent or
    loads, [encode_data] with the name B returns one list of ids for each
    line, and [decode_data] on these lists, run on the files that
    [encode_data] left, returns for each line the begin marker, the line
    without its white space, and the end marker; the ids of an early line
    are still decoded to that line after the later lines have added their
    tokens. *)
Theorem driver_round_trip
    (external_encode : strategy → string → FS → result (list Z * FS))
    (external_decode : strategy → list Z → FS → result (string * FS))
    (lines : list string) (fs : FS) :
  loadable fs →
  ∃ encoded_data fs',
    encode_data external_encode lines "B" fs = Ok (encoded_data, fs')
    ∧ length encoded_data = length lines
    ∧ decode_data external_decode encoded_data "B" fs'
      = Ok (decoded_line <$> lines, fs').
Proof.
  intros Hok.
  destruct (encode_data_B external_encode lines fs Hok)
    as (idss & fs' & Henc & _ & _ & Hsome & Hall).
  exists idss, fs'. split; [done |].
  destruct lines as [|line lines].
  - simpl in Henc. by simplify_eq.
  - destruct (Hsome ltac:(done)) as [l' Hh'].
    specialize (Hall l' Hh'). split; [symmetry; by eapply Forall2_length |].
    by apply (decode_data_B external_decode _ _ _ l').
Qed.

Lemma driver_round_trip_witness :
  loadable ∅
  ∧ ∃ encoded_data fs',
      encode_data (λ _ _ _, Raise (ValueError "")) ["to be"; "or not"; "to be"] "B" ∅
        = Ok (encoded_data, fs')
      ∧ decode_data (λ _ _ _, Raise (ValueError "")) encoded_data "B" fs'
        = Ok (["<|BOS|>tobe<|EOS|>"; "<|BOS|>ornot<|EOS|>"; "<|BOS|>tobe<|EOS|>"], fs').
Proof.
  assert (Hok : loadable ∅) by (intros text; by rewrite lookup_empty).
  split; [exact Hok |].
  destruct (driver_round_trip (λ _ _ _, Raise (ValueError ""))
              (λ _ _ _, Raise (ValueError "")) ["to be"; "or not"; "to be"] ∅ Hok)
    as (encoded_data & fs' & Henc & _ & Hdec).
  by exists encoded_data, fs'.
Defined.

(** X16. An unknown name and the lines: for a name outside the table,
    [encode_data] and [decode_data] raise the error of the unknown
    tokenizer as soon as there is one line, or one list of ids; with no
    line and no list they return the empty list and the name is not
    looked at. *)
Theorem driver_unknown_name
    (external_encode : strategy → string → FS → result (list Z * FS))
    (external_decode : strategy → list Z → FS → result (string * FS))
    (name : string) (fs : FS) :
  name ∉ recognised →
  encode_data external_encode [] name fs = Ok ([], fs)
  ∧ decode_data external_decode [] name fs = Ok ([], fs)
  ∧ (∀ line lines,
       encode_data external_encode (line :: lines) name fs
       = Raise (unknown_tokenizer name))
  ∧ (∀ ids idss,
       decode_data external_decode (ids :: idss) name fs
       = Raise (unknown_tokenizer name)).
Proof.
  intros Hname%TOKENIZERS_None. split; [done |]. split; [done |]. split.
  - intros line lines. simpl. unfold encode_text. by rewrite Hname.
  - intros ids idss. simpl. unfold decode_text. by rewrite Hname.
Qed.

Lemma driver_unknown_name_witness :
  ("NOPE" ∉ recognised)
  ∧ encode_data (λ _ _ _, Raise (ValueError "")) ["a line"] "NOPE" ∅
    = Raise (unknown_tokenizer "NOPE").
Proof.
  assert (Hname : "NOPE" ∉ recognised) by (by apply TOKENIZERS_None).
  split; [exact Hname |].
  destruct (driver_unknown_name (λ _ _ _, Raise (ValueError ""))
              (λ _ _ _, Raise (ValueError "")) "NOPE" ∅ Hname) as (_ & _ & Henc & _).
  apply Henc.
Defined.

(** * Properties of [do_download.py] *)

(** ** The paths of the books *)

Lemma append_inj_r (s s' t : string) : s +:+ t = s' +:+ t → s = s'.
Proof.
  intros Heq.
  assert (Hlen : String.length s = String.length s').
  { apply (f_equal String.length) in Heq. rewrite !length_append in Heq. lia. }
  revert s' Heq Hlen. induction s as [|c s IH]; intros [|c' s'] Heq Hlen;
    simpl in *; try done.
  injection Heq as -> Heq. f_equal. apply IH; [done | lia].
Qed.

Lemma generate_filepath_eq (index : Z) :
  generate_filepath index = "./data/original_text/book_" +:+ pretty index +:+ ".txt".
Proof. done. Qed.

(** X17. The path of a book: the folder, then [book_], the index in
    decimal, and [.txt]; two indices that differ give two paths that
    differ, so that no download is written over an earlier one. *)
Theorem generate_filepath_inj (i j : Z) :
  generate_filepath i = "./data/original_text/book_" +:+ pretty i +:+ ".txt"
  ∧ (generate_filepath i = generate_filepath j → i = j)
  ∧ generate_filepath 1 = "./data/original_text/book_1.txt"
  ∧ generate_filepath i ≠ vocab_file.
Proof.
  split; [done |]. split; [| split; [by vm_compute |]].
  - rewrite !generate_filepath_eq. intros Heq.
    apply String.app_inj in Heq. apply append_inj_r in Heq.
    by apply (inj pretty).
  - rewrite generate_filepath_eq. unfold vocab_file. simpl. by intros [=].
Qed.

(** ** The loops of [download_books] *)

Section DownloadFacts.
Context {World : Type}.
Context (download_book : Z → string → World → bool * World).
Context (fetch_random_book_ids : Z → World → list Z * World).

Lemma try_in_order_cons (num_books : Z) (book_id : Z) (rest : list Z)
    (s i : Z) (w : World) :
  s < num_books →
  try_in_order download_book num_books (book_id :: rest) s i w
  = (let '(ok, w) := download_book book_id (generate_filepath i) w in
     if ok then try_in_order download_book num_books rest (s + 1) (i + 1) w
     else try_in_order download_book num_books rest s i w).
Proof. intros Hs. simpl. by rewrite (proj2 (Z.ltb_lt _ _) Hs). Qed.

Lemma attempts_try (num_books retry_count : Z) (rest : list Z) (book_id : Z)
    (s i retries : Z) (w : World) (log : list message)
    (ok : bool) (rest' : list Z) (w' : World) (log' : list message) :
  s < num_books → retries ≤ retry_count →
  attempts download_book retry_count rest book_id (generate_filepath i) retries w log
    = (ok, rest', w', log') →
  try_in_order download_book num_books (book_id :: rest) s i w
    = try_in_order download_book num_books rest'
        (if ok then s + 1 else s) (if ok then i + 1 else i) w'
  ∧ (length rest' ≤ length rest)%nat.
Proof.
  intros Hs. revert book_id retries w log.
  induction rest as [|next rest IH]; intros book_id retries w log Hr;
    rewrite try_in_order_cons by done;
    simpl attempts; rewrite (proj2 (Z.leb_le _ _) Hr);
    destruct (download_book book_id (generate_filepath i) w) as [[] w1].
  - intros [= <- <- <- <-]. done.
  - destruct (retries + 1 <=? retry_count); intros [= <- <- <- <-]; done.
  - intros [= <- <- <- <-]. done.
  - destruct (Z.leb_spec (retries + 1) retry_count) as [Hr' | Hr'].
    + intros Hrec. destruct (IH _ _ _ _ Hr' Hrec) as [<- Hlen].
      split; [done | simpl; lia].
    + intros [= <- <- <- <-]. done.
Qed.

Lemma download_loop_try (num_books retry_count : Z) (fuel : nat) (book_ids : list Z)
    (s i : Z) (w : World) (log : list message) :
  0 ≤ retry_count → (length book_ids ≤ fuel)%nat →
  ∃ log',
    download_loop download_book fuel num_books retry_count (book_ids, s, i, w, log)
    = Some (try_in_order download_book num_books book_ids s i w, log').
Proof.
  intros Hretry. revert book_ids s i w log.
  induction fuel as [|fuel IH]; intros [|book_id rest] s i w log Hfuel;
    try (simpl in Hfuel; lia).
  - by exists log.
  - by exists log.
  - simpl download_loop. destruct (Z.ltb_spec s num_books) as [Hs | Hs].
    2: { exists log. simpl. by rewrite (proj2 (Z.ltb_ge _ _) Hs). }
    destruct (attempts download_book retry_count rest book_id (generate_filepath i) 0 w log)
      as [[[ok rest'] w'] log'] eqn:Hatt.
    destruct (attempts_try num_books retry_count rest book_id s i 0 w log
                ok rest' w' log' Hs Hretry Hatt) as [Htry Hlen].
    rewrite Htry. simpl in Hfuel. destruct ok; apply IH; lia.
Qed.

Lemma download_loop_negative (num_books retry_count : Z) (fuel : nat)
    (book_ids : list Z) (s i : Z) (w : World) (log : list message) :
  retry_count < 0 → (length book_ids ≤ fuel)%nat →
  download_loop download_book fuel num_books retry_count (book_ids, s, i, w, log)
  = Some (if s <? num_books then [] else book_ids, s, i, w, log).
Proof.
  intros Hretry. revert book_ids.
  induction fuel as [|fuel IH]; intros [|book_id rest] Hfuel;
    try (simpl in Hfuel; lia).
  - simpl. by destruct (s <? num_books).
  - simpl. by destruct (s <? num_books).
  - simpl. destruct (Z.ltb_spec s num_books) as [Hs | Hs]; [| done].
    assert (Hatt : attempts download_book retry_count rest book_id
                     (generate_filepath i) 0 w log = (false, rest, w, log)).
    { destruct rest; simpl; by rewrite (proj2 (Z.leb_gt _ _)) by lia. }
    rewrite Hatt. by rewrite IH by (simpl in Hfuel; lia).
Qed.

Lemma try_in_order_spec (num_books : Z) (book_ids : list Z) (s i : Z) (w : World)
    (remaining : list Z) (s' i' : Z) (w' : World) :
  try_in_order download_book num_books book_ids s i w = (remaining, s', i', w') →
  remaining `suffix_of` book_ids
  ∧ s ≤ s' ∧ s' - s = i' - i ∧ s' ≤ Z.max s num_books
  ∧ (remaining = [] ∨ num_books ≤ s')
  ∧ s' - s ≤ Z.of_nat (length book_ids) - Z.of_nat (length remaining).
Proof.
  revert s i w. induction book_ids as [|book_id rest IH]; intros s i w; simpl.
  - intros [= <- <- <- <-].
    split; [done |]. split; [lia |]. split; [lia |]. split; [lia |].
    split; [by left | simpl; lia].
  - destruct (Z.ltb_spec s num_books) as [Hs | Hs].
    + destruct (download_book book_id (generate_filepath i) w) as [[] w1];
        intros (Hsuf & H1 & H2 & H3 & H4 & H5)%IH;
        (split; [by apply suffix_cons_r |]);
        (split; [lia |]); (split; [lia |]); (split; [lia |]);
        (split; [done | simpl; lia]).
    + intros [= <- <- <- <-].
      split; [done |]. split; [lia |]. split; [lia |]. split; [lia |].
      split; [by right | simpl; lia].
Qed.
End DownloadFacts.

Lemma download_books_in_order_aux {World : Type}
    (download_book : Z → string → World → bool * World)
    (book_ids : list Z) (num_books retry_count : Z) (w : World) :
  0 ≤ retry_count →
  ∃ remaining successful w' log,
    download_books download_book book_ids num_books retry_count w
      = Some (remaining, successful, w', log)
    ∧ try_in_order download_book num_books book_ids 0 1 w
      = (remaining, successful, successful + 1, w').
Proof.
  intros Hretry.
  destruct (download_loop_try download_book num_books retry_count (length book_ids)
              book_ids 0 1 w [] Hretry (le_n _)) as [log Hloop].
  destruct (try_in_order download_book num_books book_ids 0 1 w)
    as [[[remaining successful] index] w'] eqn:Htry.
  destruct (try_in_order_spec download_book _ _ _ _ _ _ _ _ _ Htry)
    as (_ & _ & H2 & _).
  assert (index = successful + 1) as -> by lia.
  eexists remaining, successful, w', _. unfold download_books. rewrite Hloop. done.
Qed.

(** X18. The ids are tried in order, each once: for a retry count that is
    not negative, whatever its value, [download_books] returns, and what
    it leaves is what trying the ids one after the other leaves, each id
    once, the download of index k+1 being tried after k downloads, until
    [num_books] downloads are made or the ids are used up. The ids left
    are an end of the list given; the downloads are no more than
    [num_books] and no more than the ids used; and the loop stops with
    downloads missing only when no id is left. *)
Theorem download_books_in_order {World : Type}
    (download_book : Z → string → World → bool * World)
    (book_ids : list Z) (num_books retry_count : Z) (w : World) :
  0 ≤ retry_count →
  ∃ remaining successful w' log,
    download_books download_book book_ids num_books retry_count w
      = Some (remaining, successful, w', log)
    ∧ try_in_order download_book num_books book_ids 0 1 w
      = (remaining, successful, successful + 1, w')
    ∧ remaining `suffix_of` book_ids
    ∧ 0 ≤ successful ≤ Z.max 0 num_books
    ∧ successful ≤ Z.of_nat (length book_ids) - Z.of_nat (length remaining)
    ∧ (remaining = [] ∨ num_books ≤ successful).
Proof.
  intros Hretry.
  destruct (download_loop_try download_book num_books retry_count (length book_ids)
              book_ids 0 1 w [] Hretry (le_n _)) as [log Hloop].
  destruct (try_in_order download_book num_books book_ids 0 1 w)
    as [[[remaining successful] index] w'] eqn:Htry.
  destruct (try_in_order_spec download_book _ _ _ _ _ _ _ _ _ Htry)
    as (Hsuf & H1 & H2 & H3 & H4 & H5).
  assert (index = successful + 1) as -> by lia.
  eexists remaining, successful, w', _. unfold download_books. rewrite Hloop. simpl.
  split; [done |]. split; [done |]. split; [done |].
  split; [lia |]. split; [lia | done].
Qed.

Lemma download_books_in_order_witness :
  0 ≤ 3
  ∧ ∃ remaining successful w' log,
      download_books (λ book_id _ (w : list Z), (Z.even book_id, w ++ [book_id]))
        [11; 12; 13; 14; 15] 2 3 []
        = Some (remaining, successful, w', log)
      ∧ try_in_order (λ book_id _ (w : list Z), (Z.even book_id, w ++ [book_id]))
          2 [11; 12; 13; 14; 15] 0 1 []
        = (remaining, successful, successful + 1, w').
Proof.
  assert (Hretry : 0 ≤ 3) by lia. split; [exact Hretry |].
  destruct (download_books_in_order
              (λ book_id _ (w : list Z), (Z.even book_id, w ++ [book_id]))
              [11; 12; 13; 14; 15] 2 3 [] Hretry)
    as (remaining & successful & w' & log & Hrun & Htry & _).
  by exists remaining, successful, w', log.
Defined.

(** X19. A negative retry count: [download_books] then tries no download
    at all; when downloads are asked for, it takes every id from the list,
    leaves the world as it is and warns that nothing was downloaded. *)
Theorem download_books_negative_retry {World : Type}
    (download_book : Z → string → World → bool * World)
    (book_ids : list Z) (num_books retry_count : Z) (w : World) :
  retry_count < 0 →
  download_books download_book book_ids num_books retry_count w
  = Some (if 0 <? num_books then [] else book_ids, 0, w,
          if 0 <? num_books then [Msg_warning 0 num_books] else []).
Proof.
  intros Hretry. unfold download_books.
  rewrite (download_loop_negative download_book) by (done || lia). done.
Qed.

Lemma download_books_negative_retry_witness :
  -1 < 0
  ∧ download_books (λ book_id _ (w : list Z), (true, w ++ [book_id])) [11; 12] 2 (-1) []
    = Some ([], 0, [], [Msg_warning 0 2]).
Proof.
  assert (Hretry : -1 < 0) by lia. split; [exact Hretry |].
  exact (download_books_negative_retry
           (λ book_id _ (w : list Z), (true, w ++ [book_id])) [11; 12] 2 (-1) [] Hretry).
Defined.

(** X20. [main] of the downloader: it returns for all arguments; with a
    number of books that is not positive, or a negative retry count, it
    prints one message and neither fetches nor downloads; otherwise it
    fetches the ids once and the world it leaves is the one that trying
    the fetched ids in order leaves, whatever the retry count. *)
Theorem download_main_spec {World : Type}
    (download_book : Z → string → World → bool * World)
    (fetch_random_book_ids : Z → World → list Z * World)
    (num_books retry_count : Z) (w : World) :
  (num_books ≤ 0 →
     download_main download_book fetch_random_book_ids num_books retry_count w
     = Some (w, [Msg_num_books]))
  ∧ (0 < num_books → retry_count < 0 →
     download_main download_book fetch_random_book_ids num_books retry_count w
     = Some (w, [Msg_retry_count]))
  ∧ (0 < num_books → 0 ≤ retry_count →
     ∃ log,
       download_main download_book fetch_random_book_ids num_books retry_count w
       = Some ((try_in_order download_book num_books
                  (fetch_random_book_ids num_books w).1 0 1
                  (fetch_random_book_ids num_books w).2).2, log)).
Proof.
  unfold download_main. split; [| split].
  - intros Hn. by rewrite (proj2 (Z.leb_le _ _) Hn).
  - intros Hn Hr. rewrite (proj2 (Z.leb_gt _ _) Hn).
    by rewrite (proj2 (Z.ltb_lt _ _) Hr).
  - intros Hn Hr. rewrite (proj2 (Z.leb_gt _ _) Hn).
    rewrite (proj2 (Z.ltb_ge _ _) Hr).
    destruct (fetch_random_book_ids num_books w) as [book_ids w1]. simpl fst. simpl snd.
    destruct book_ids as [|book_id rest]; [by eexists |].
    destruct (download_books_in_order_aux download_book (book_id :: rest)
                num_books retry_count w1 Hr)
      as (remaining & successful & w' & log & -> & -> ).
    by eexists.
Qed.
